(** * xo/kobra (package ox): command tree, default population and token parser

    A shallow embedding of the command-tree resolver ([Command.Command],
    [Command.Lookup], [Command.Flag]), of default population
    ([Command.Populate]), of the suggestion and completion engine
    ([Command.Suggest], [Command.CompCommands], [addComp]) and of the token
    parser ([Parse], [parse], [parseLong], [parseShort]) of [cmd.go].

    Go strings are byte strings: they are modelled as [string] (a list of
    8-bit [ascii]), [len] is [String.length], and [[]rune(s)] / [string(r)]
    are the UTF-8 decoding and encoding of the Go runtime.  The [Vars] table
    (a Go [map[string]Value]) is a [gmap string Value]; Go mutates it in
    place, the embedding threads it through every call and hands it back
    next to the error. *)

From stdpp Require Import base option list strings gmap fin_maps sorting.
From Stdlib Require Import ZArith NArith Ascii String Lia.

Local Open Scope string_scope.
Local Open Scope list_scope.

(** ** Go strings, bytes and runes *)

Module GoString.

Local Open Scope N_scope.

(** A rune is a Unicode code point. *)
Definition rune := N.

Definition RuneError : rune := 0xFFFD%N.

Definition bytes (s : string) : list N := map N_of_ascii (list_ascii_of_string s).

Definition of_bytes (bs : list N) : string := string_of_list_ascii (map ascii_of_N bs).

(** [lo <= b <= hi] on bytes. *)
Definition between (lo hi b : N) : bool := ((lo <=? b) && (b <=? hi))%N.

(** Continuation byte of a multi-byte sequence. *)
Definition cont (b : N) : bool := between 0x80 0xBF b.

Inductive width := W2 | W3 | W4.

(** The [first] table of [unicode/utf8]: for a lead byte, the width of the
    sequence and the accepted range of its second byte. *)
Definition first (b0 : N) : option (width * N * N) :=
  if between 0xC2 0xDF b0 then Some (W2, 0x80, 0xBF)
  else if (b0 =? 0xE0) then Some (W3, 0xA0, 0xBF)
  else if between 0xE1 0xEC b0 then Some (W3, 0x80, 0xBF)
  else if (b0 =? 0xED) then Some (W3, 0x80, 0x9F)
  else if between 0xEE 0xEF b0 then Some (W3, 0x80, 0xBF)
  else if (b0 =? 0xF0) then Some (W4, 0x90, 0xBF)
  else if between 0xF1 0xF3 b0 then Some (W4, 0x80, 0xBF)
  else if (b0 =? 0xF4) then Some (W4, 0x80, 0x8F)
  else None.

Definition low6 (b : N) : N := N.land b 0x3F.

(** [[]rune(s)] on the bytes of [s]: an invalid or truncated sequence yields
    [RuneError] and consumes one byte. *)
Fixpoint decode (bs : list N) : list rune :=
  match bs with
  | [] => []
  | b0 :: t0 =>
    if (b0 <? 0x80)%N then b0 :: decode t0
    else
      match first b0, t0 with
      | Some (W2, lo, hi), b1 :: t1 =>
        if between lo hi b1
        then N.lor (N.shiftl (N.land b0 0x1F) 6) (low6 b1) :: decode t1
        else RuneError :: decode t0
      | Some (W3, lo, hi), b1 :: b2 :: t2 =>
        if between lo hi b1 && cont b2
        then N.lor (N.shiftl (N.land b0 0x0F) 12)
               (N.lor (N.shiftl (low6 b1) 6) (low6 b2)) :: decode t2
        else RuneError :: decode t0
      | Some (W4, lo, hi), b1 :: b2 :: b3 :: t3 =>
        if between lo hi b1 && cont b2 && cont b3
        then N.lor (N.shiftl (N.land b0 0x07) 18)
               (N.lor (N.shiftl (low6 b1) 12)
                  (N.lor (N.shiftl (low6 b2) 6) (low6 b3))) :: decode t3
        else RuneError :: decode t0
      | _, _ => RuneError :: decode t0
      end
  end.

(** [utf8.AppendRune]: surrogates and values past U+10FFFF encode as
    [RuneError]. *)
Definition encode (r : rune) : list N :=
  let c b := N.lor 0x80 (low6 b) in
  if (r <? 0x80)%N then [r]
  else if (r <? 0x800)%N then [N.lor 0xC0 (N.shiftr r 6); c r]
  else if between 0xD800 0xDFFF r || (0x10FFFF <? r)%N then [0xEF; 0xBF; 0xBD]%N
  else if (r <? 0x10000)%N
       then [N.lor 0xE0 (N.shiftr r 12); c (N.shiftr r 6); c r]
       else [N.lor 0xF0 (N.shiftr r 18); c (N.shiftr r 12); c (N.shiftr r 6); c r].

(** [[]rune(s)] *)
Definition runes (s : string) : list rune := decode (bytes s).

(** [string(rs)] for [rs []rune], and [string(r)] for one rune. *)
Definition of_runes (rs : list rune) : string := of_bytes (List.concat (map encode rs)).

Definition of_rune (r : rune) : string := of_runes [r].

(** [utf8.RuneCountInString] *)
Definition RuneCountInString (s : string) : nat := List.length (runes s).

(** A string of the ASCII range: every byte is below 0x80. *)
Definition ascii_only (s : string) : bool := forallb (fun b => (b <? 0x80)%N) (bytes s).

(** [s[i:]] *)
Fixpoint from (i : nat) (s : string) : string :=
  match i, s with
  | O, _ => s
  | S i', String _ t => from i' t
  | S _, EmptyString => EmptyString
  end.

(** [strings.HasPrefix(s, p)] *)
Fixpoint HasPrefix (s p : string) {struct p} : bool :=
  match p with
  | EmptyString => true
  | String a p' =>
    match s with
    | String b s' => Ascii.eqb a b && HasPrefix s' p'
    | EmptyString => false
    end
  end.

(** [strings.TrimPrefix(s, p)] *)
Definition TrimPrefix (s p : string) : string :=
  if HasPrefix s p then from (String.length p) s else s.

(** [strings.Cut(s, "=")]: the text before and after the first ['='], and
    whether there was one. *)
Fixpoint CutEq (s : string) : string * string * bool :=
  match s with
  | EmptyString => (EmptyString, EmptyString, false)
  | String c t =>
    if Ascii.eqb c "=" then (EmptyString, t, true)
    else let '(b, a, ok) := CutEq t in (String c b, a, ok)
  end.

(** [slices.Index(v, r)]: the index of the first [r] in [v], or -1. *)
Fixpoint Index (v : list rune) (r : rune) : Z :=
  match v with
  | [] => (-1)%Z
  | x :: t => if (x =? r)%N then 0%Z
              else let i := Index t r in if (i <? 0)%Z then (-1)%Z else (i + 1)%Z
  end.

(** [slices.Contains(l, s)] on strings. *)
Definition Contains (l : list string) (s : string) : bool := existsb (String.eqb s) l.

End GoString.

Import GoString.

(** ** Data model *)

(** The flag types [cmd.go] names ([FlagSet.String], ..., [FlagSet.Hook]). *)
Inductive Type_ :=
| StringT | BytesT | Base64T | HexT | BoolT | ByteT | RuneT
| Int64T | Int32T | Int16T | Int8T | IntT
| Uint64T | Uint32T | Uint16T | Uint8T | UintT
| Float64T | Float32T | Complex128T | Complex64T
| TimestampT | DateTimeT | DateT | DurationT | PathT | CountT
| BigIntT | BigFloatT | BigRatT | AddrT | AddrPortT | CIDRT | URLT | UUIDT | ColorT
| SliceT | MapT | HookT.

#[global] Instance Type__eq_dec : EqDecision Type_.
Proof. solve_decision. Defined.

(** Go's [any], as far as a flag's [Def] and [NoArgDef] hold one: a dynamic
    value.  The code never inspects it; it hands it to [Context.Expand],
    [toBoolString] and [newHook]. *)
Inductive any :=
| AnyString (s : string)
| AnyBool (b : bool)
| AnyInt (z : Z)
| AnyFunc (id : string).

(** [type Flag struct] ([Binds] and [Keys] play no part in what follows). *)
Module Flag.
Record t := mk {
  Type' : Type_;
  MapKey : Type_;
  Elem : Type_;
  Name : string;
  Usage : string;
  Short : string;
  Aliases : list string;
  Spec : string;
  Def : option any;
  NoArg : bool;
  NoArgDef : option any;
  Section_ : Z;
  Hidden : bool;
  Deprecated : bool;
  Special : string
}.
End Flag.

(** [type FlagSet struct] *)
Module FlagSet.
Record t := mk { Flags : list Flag.t }.
End FlagSet.

(** [type CommandHelp struct], as [Suggest] and [CompCommands] read it. *)
Module CommandHelp.
Record t := mk { MinDist : Z }.
End CommandHelp.

(** [type Command struct].  [Parent] is the back-reference: the chain of
    ancestors as [Flag], [Tree] and [Parse] read it.  [Help] is [Some] when
    the [io.WriterTo] held is a [*CommandHelp].  [Exec], [Args] and [OnErr]
    play no part in what follows. *)
Module Command.
#[local] Unset Elimination Schemes.
Inductive t := mk {
  Parent : option t;
  Name : string;
  Usage : string;
  Aliases : list string;
  Suggested : list string;
  Flags : option FlagSet.t;
  Commands : list t;
  Help : option CommandHelp.t;
  Comp : bool;
  Section_ : Z;
  Hidden : bool;
  Deprecated : bool;
  Special : string
}.
#[local] Set Elimination Schemes.
End Command.

(** The error values of the package.  [Errorf p e] is
    [fmt.Errorf(p + ": %w", e)]. *)
Inductive error :=
| ErrUnknownFlag
| ErrMissingArgument
| ErrUnknownCommand
| ErrCanOnlyBeUsedWithRootCommand
| ErrInvalidValue
| ErrExternal (msg : string)
| Errorf (prefix : string) (e : error)
| ErrorfPopulate (name value : string) (e : error)
| ErrorfSuggestion (e : error) (arg cmdName : string)
| SuggestionError (cmd : Command.t) (arg : string) (c : Command.t).

(** What a fallible function returns next to the [Vars] it worked on. *)
Inductive result (T : Type) :=
| Ok (x : T)
| Err (e : error).
Arguments Ok {T} x.
Arguments Err {T} e.

(** [newCommandError] *)
Definition newCommandError (name : string) (err : error) : error :=
  Errorf ("command " +:+ name) err.

(** [newFlagError] *)
Definition newFlagError (name : string) (err : error) : error :=
  if Nat.eqb (RuneCountInString name) 1
  then Errorf ("-" +:+ name) err
  else Errorf ("--" +:+ name) err.

(** Modelled from the spec: [prepend] is not under src/.  [Suggest] scans
    "name/alias/suggested-name": [prepend(c.Aliases, c.Name)] puts the name
    in front of the aliases. *)
Definition prepend {A : Type} (v : list A) (items : list A) : list A := items ++ v.

(** ** The command tree resolver *)

(** [Command.Command]: the first sub command, in declaration order, whose
    name or one of whose aliases is [name]. *)
Fixpoint Command_Command_loop (cs : list Command.t) (name : string) : option Command.t :=
  match cs with
  | [] => None
  | c :: cs' =>
    if String.eqb (Command.Name c) name || Contains (Command.Aliases c) name
    then Some c
    else Command_Command_loop cs' name
  end.

Definition Command_Command (cmd : Command.t) (name : string) : option Command.t :=
  Command_Command_loop (Command.Commands cmd) name.

(** [Command.Lookup] *)
Fixpoint Command_Lookup (cmd : Command.t) (names : list string) : Command.t :=
  match names with
  | [] => cmd
  | name :: names' =>
    match Command_Command cmd name with
    | Some c => Command_Lookup c names'
    | None => cmd
    end
  end.

(** The predicate [Command.Flag] hands to [slices.IndexFunc]. *)
Definition Flag_matches (name : string) (short : bool) (g : Flag.t) : bool :=
  (String.eqb (Flag.Name g) name && negb short)
  || (String.eqb (Flag.Short g) name && short)
  || existsb (fun s => String.eqb s name && Bool.eqb (Nat.eqb (String.length s) 1) short)
       (Flag.Aliases g).

(** [Command.Flag] *)
Fixpoint Command_Flag (cmd : Command.t) (name : string) (parents short : bool) : option Flag.t :=
  match
    match Command.Flags cmd with
    | Some fs => List.find (Flag_matches name short) (FlagSet.Flags fs)
    | None => None
    end
  with
  | Some g => Some g
  | None =>
    if parents
    then match Command.Parent cmd with
         | Some p => Command_Flag p name parents short
         | None => None
         end
    else None
  end.

(** [Command.Tree] *)
Fixpoint Command_Tree (cmd : Command.t) : list string :=
  match Command.Parent cmd with
  | Some p => Command_Tree p ++ [Command.Name cmd]
  | None => [Command.Name cmd]
  end.

(** ** Default population, suggestion, completion and the token parser *)

Section Model.

(** The collaborators that are not under src/: the evaluation context and
    its [Expand], the [Value] type and [Vars.Set], [toBoolString], the
    one-argument [Command.Flag] of the parser, [strings.ToLower], [Ldist],
    [DefaultMinDist] and [NewCompletion]. *)
Variable Context : Type.
Variable Value : Type.
Variable Expand : Context -> any -> error + string.
Variable Vars_Set :
  Context -> gmap string Value -> Flag.t -> string -> bool -> gmap string Value * option error.
Variable toBoolString : option any -> string.
Variable flagOf : Command.t -> string -> option Flag.t.
Variable ToLower : string -> string.
Variable Ldist : list rune -> list rune -> Z.
Variable DefaultMinDist : Z.
Variable Completion : Type.
Variable NewCompletion : string -> string -> Completion.

(** [type Vars map[string]Value] *)
Local Abbreviation Vars := (gmap string Value).

(** The loop of [Command.Populate] over [cmd.Flags.Flags]. *)
Fixpoint Populate_loop (ctx : Context) (all overwrite : bool) (flags : list Flag.t)
    (vars : Vars) : Vars * option error :=
  match flags with
  | [] => (vars, None)
  | g :: flags' =>
    let vars :=
      if bool_decide (is_Some (vars !! Flag.Name g)) && overwrite
      then delete (Flag.Name g) vars
      else vars in
    if bool_decide (Flag.Type' g = HookT)
       || (bool_decide (Flag.Def g = None) && negb all)
    then Populate_loop ctx all overwrite flags' vars
    else
      match
        match Flag.Def g with
        | Some d => Expand ctx d
        | None => inr ""
        end
      with
      | inl err => (vars, Some err)
      | inr value =>
        match Vars_Set ctx vars g value false with
        | (vars', Some err) => (vars', Some (ErrorfPopulate (Flag.Name g) value err))
        | (vars', None) => Populate_loop ctx all overwrite flags' vars'
        end
      end
  end.

(** [Command.Populate] *)
Definition Command_Populate (cmd : Command.t) (ctx : Context) (all overwrite : bool)
    (vars : Vars) : Vars * option error :=
  match Command.Flags cmd with
  | None => (vars, None)
  | Some fs => Populate_loop ctx all overwrite (FlagSet.Flags fs) vars
  end.

(** The threshold [Suggest] and [CompCommands] compute: [help.MinDist] when
    the command's help is a [*CommandHelp], [DefaultMinDist] when that is
    not positive. *)
Definition minDistOf (cmd : Command.t) : Z :=
  let minDist :=
    match Command.Help cmd with
    | Some help => CommandHelp.MinDist help
    | None => 0%Z
    end in
  if (minDist <=? 0)%Z then DefaultMinDist else minDist.

(** The inner loop of [Command.Suggest], over the names of one sub command. *)
Fixpoint Suggest_names (arg : list rune) (minDist : Z) (names : list string) : bool :=
  match names with
  | [] => false
  | name :: names' =>
    if (Ldist arg (runes (ToLower name)) <=? minDist)%Z then true
    else Suggest_names arg minDist names'
  end.

(** The outer loop of [Command.Suggest], over the sub commands. *)
Fixpoint Suggest_loop (arg : list rune) (minDist : Z) (cs : list Command.t)
    : option Command.t :=
  match cs with
  | [] => None
  | c :: cs' =>
    if Suggest_names arg minDist
         (prepend (Command.Aliases c) [Command.Name c] ++ Command.Suggested c)
    then Some c
    else Suggest_loop arg minDist cs'
  end.

(** [Command.Suggest]: [None] is the nil error. *)
Definition Command_Suggest (cmd : Command.t) (args : list string) : option error :=
  match args with
  | [] => None
  | a0 :: _ =>
    match Suggest_loop (runes (ToLower a0)) (minDistOf cmd) (Command.Commands cmd) with
    | Some c => Some (SuggestionError cmd a0 c)
    | None => Some (ErrorfSuggestion ErrUnknownCommand a0 (Command.Name cmd))
    end
  end.

(** [addComp]: [m] is the [map[string]bool] of the names seen. *)
Definition addComp (comps : list Completion) (cmd : Command.t) (m : gmap string bool)
    (b : bool) : list Completion * gmap string bool * bool :=
  if default false (m !! Command.Name cmd) then (comps, m, true)
  else if b
       then (comps ++ [NewCompletion (Command.Name cmd) (Command.Usage cmd)],
             <[Command.Name cmd := true]> m, true)
       else (comps, m, false).

(** One iteration of a loop of [CompCommands]: the conditions are tried in
    order, the first [addComp] that answers [true] ends the iteration. *)
Fixpoint Comp_try (comps : list Completion) (c : Command.t) (m : gmap string bool)
    (conds : list bool) : list Completion * gmap string bool :=
  match conds with
  | [] => (comps, m)
  | b :: conds' =>
    let '(comps', m', ok) := addComp comps c m b in
    if ok then (comps', m') else Comp_try comps' c m' conds'
  end.

(** A loop of [CompCommands] over [cmd.Commands]. *)
Fixpoint Comp_pass (conds : Command.t -> list bool) (cs : list Command.t)
    (comps : list Completion) (m : gmap string bool) : list Completion * gmap string bool :=
  match cs with
  | [] => (comps, m)
  | c :: cs' =>
    let '(comps', m') := Comp_try comps c m (conds c) in
    Comp_pass conds cs' comps' m'
  end.

(** The conditions of the first loop: "check exact or case insensitive
    name/alias". *)
Definition conds_exact (name : string) (c : Command.t) : list bool :=
  let lower := ToLower name in
  [ String.eqb name (Command.Name c);
    existsb (fun s => String.eqb name s) (Command.Aliases c);
    String.eqb (ToLower (Command.Name c)) lower;
    existsb (fun s => String.eqb lower (ToLower s)) (Command.Aliases c) ].

(** The conditions of the second loop: "check prefix". *)
Definition conds_prefix (name : string) (c : Command.t) : list bool :=
  let lower := ToLower name in
  [ HasPrefix (ToLower (Command.Name c)) lower;
    existsb (fun s => HasPrefix (ToLower s) lower) (Command.Aliases c) ].

(** The conditions of the third loop: "check distance". *)
Definition conds_dist (minDist : Z) (name : string) (c : Command.t) : list bool :=
  let l := runes (ToLower name) in
  [ (Ldist (runes (ToLower (Command.Name c))) l <=? minDist)%Z;
    existsb (fun s => (Ldist (runes (ToLower s)) l <=? minDist)%Z) (Command.Aliases c) ].

Inductive CompDirective := CompNoFileComp | CompError.

(** [Command.CompCommands] *)
Definition Command_CompCommands (cmd : Command.t) (name : string)
    : list Completion * CompDirective :=
  let cs := Command.Commands cmd in
  let '(comps, m) := Comp_pass (conds_exact name) cs [] ∅ in
  let '(comps, m) := Comp_pass (conds_prefix name) cs comps m in
  let minDist := minDistOf cmd in
  let '(comps, m) :=
    if negb (minDist =? 0)%Z
    then Comp_pass (conds_dist minDist name) cs comps m
    else (comps, m) in
  (comps, CompNoFileComp).

(** *** The token parser

    The parser of [cmd.go] calls [cmd.Flag(arg)], [vars.Set(g, value, true)]
    and [c.Populate(false, false, vars)]: here [flagOf cmd arg],
    [Vars_Set ctx vars g value true] and [Command_Populate c ctx false false
    vars], with the context of [Command.Populate] passed along. *)

(** The state of the loop of [parse]: the cursor command [cmd], the residual
    tokens [args], the table [vars] and the positional list [v]. *)
Record state := mkState {
  st_cmd : Command.t;
  st_args : list string;
  st_vars : Vars;
  st_v : list string
}.

(** [parseLong] *)
Definition parseLong (ctx : Context) (cmd : Command.t) (s : string) (args : list string)
    (vars : Vars) : Vars * result (list string) :=
  let '(arg, value, ok) := CutEq (TrimPrefix s "--") in
  match flagOf cmd arg with
  | None => (vars, Err (newFlagError arg ErrUnknownFlag))
  | Some g =>
    let set (value : string) (args : list string) :=
      match Vars_Set ctx vars g value true with
      | (vars', Some err) => (vars', Err (newFlagError arg err))
      | (vars', None) => (vars', Ok args)
      end in
    if ok then set value args
    else if Flag.NoArg g then set (toBoolString (Flag.Def g)) args
    else match args with
         | a :: args' => set a args'
         | [] => (vars, Err (newFlagError arg ErrMissingArgument))
         end
  end.

(** The loop of [parseShort] over [v], the runes of the cluster still to
    scan. *)
Fixpoint parseShort_loop (ctx : Context) (cmd : Command.t) (v : list rune)
    (args : list string) (vars : Vars) : Vars * result (list string) :=
  match v with
  | [] => (vars, Ok args)
  | r :: v1 =>
    let arg := of_rune r in
    match flagOf cmd arg with
    | None => (vars, Err (newFlagError arg ErrUnknownFlag))
    | Some g =>
      if Flag.NoArg g then
        if (Index v 61%N =? 1)%Z then
          (* value, v = string(v[2:]), v[len(v)-1:]: the loop ends after it *)
          match Vars_Set ctx vars g (of_runes (drop 2 v)) true with
          | (vars', Some err) => (vars', Err (newFlagError arg err))
          | (vars', None) => (vars', Ok args)
          end
        else
          match Vars_Set ctx vars g (toBoolString (Flag.Def g)) true with
          | (vars', Some err) => (vars', Err (newFlagError arg err))
          | (vars', None) => parseShort_loop ctx cmd v1 args vars'
          end
      else
        match List.length v1, args with
        | O, [] => (vars, Err (newFlagError arg ErrMissingArgument))
        | S _, _ =>
          let v' := if (Index v 61%N =? 1)%Z then v1 else v in
          match Vars_Set ctx vars g (of_runes (drop 1 v')) true with
          | (vars', Some err) => (vars', Err (newFlagError arg err))
          | (vars', None) => (vars', Ok args)
          end
        | O, a :: args' =>
          match Vars_Set ctx vars g a true with
          | (vars', Some err) => (vars', Err (newFlagError arg err))
          | (vars', None) => (vars', Ok args')
          end
        end
    end
  end.

(** [parseShort] *)
Definition parseShort (ctx : Context) (cmd : Command.t) (s : string) (args : list string)
    (vars : Vars) : Vars * result (list string) :=
  parseShort_loop ctx cmd (runes (from 1 s)) args vars.

(** The first case of the switch of [parse]: [n == 0, n == 1, s[0] != '-']. *)
Definition bare (s : string) : bool :=
  let n := String.length s in
  Nat.eqb n 0 || Nat.eqb n 1
  || negb (bool_decide (String.get 0 s = Some "-"%char)).

(** What one iteration of the loop of [parse] does. *)
Inductive step :=
| Next (st : state)
| Done (vars : Vars) (r : result (Command.t * list string)).

(** One iteration of the loop of [parse]; with no token left the loop ends
    and [parse] returns [cmd, v, nil]. *)
Definition parse_step (ctx : Context) (st : state) : step :=
  let '(mkState cmd args0 vars v) := st in
  match args0 with
  | [] => Done vars (Ok (cmd, v))
  | s :: args =>
    if bare s then
      match (if Nat.eqb (List.length v) 0 then Command_Command cmd s else None) with
      | Some c =>
        match Command_Populate c ctx false false vars with
        | (vars', Some err) => Done vars' (Err (newCommandError (Command.Name c) err))
        | (vars', None) => Next (mkState c args vars' v)
        end
      | None => Next (mkState cmd args vars (v ++ [s]))
      end
    else if String.eqb s "--" then Done vars (Ok (cmd, v ++ args))
    else if bool_decide (String.get 1 s = Some "-"%char) then
      match parseLong ctx cmd s args vars with
      | (vars', Err err) => Done vars' (Err err)
      | (vars', Ok args') => Next (mkState cmd args' vars' v)
      end
    else
      match parseShort ctx cmd s args vars with
      | (vars', Err err) => Done vars' (Err err)
      | (vars', Ok args') => Next (mkState cmd args' vars' v)
      end
  end.

(** The loop of [parse], run for at most [fuel] iterations. *)
Fixpoint parse_loop (ctx : Context) (fuel : nat) (st : state)
    : option (Vars * result (Command.t * list string)) :=
  match fuel with
  | O => None
  | S fuel' =>
    match parse_step ctx st with
    | Done vars r => Some (vars, r)
    | Next st' => parse_loop ctx fuel' st'
    end
  end.

(** The loop of [parse] from a state: every iteration that goes on takes a
    token, so one more iteration than there are tokens is enough
    ([parse_from_total]). *)
Definition parse_from (ctx : Context) (st : state)
    : option (Vars * result (Command.t * list string)) :=
  parse_loop ctx (S (List.length (st_args st))) st.

(** [parse] *)
Definition parse (ctx : Context) (cmd : Command.t) (args : list string) (vars : Vars)
    : option (Vars * result (Command.t * list string)) :=
  parse_from ctx (mkState cmd args vars []).

(** [Parse] *)
Definition Parse (ctx : Context) (root : Command.t) (args : list string) (vars : Vars)
    : option (Vars * result (Command.t * list string)) :=
  match Command.Parent root with
  | Some _ => Some (vars, Err (Errorf "Parse" ErrCanOnlyBeUsedWithRootCommand))
  | None =>
    match Command_Populate root ctx false false vars with
    | (vars', Some err) => Some (vars', Err (newCommandError (Command.Name root) err))
    | (vars', None) =>
      match args with
      | [] => Some (vars', Ok (root, []))
      | _ => parse ctx root args vars'
      end
    end
  end.

End Model.

Arguments Populate_loop {Context Value} Expand Vars_Set ctx all overwrite flags vars.
Arguments Command_Populate {Context Value} Expand Vars_Set cmd ctx all overwrite vars.
Arguments addComp {Completion} NewCompletion comps cmd m b.
Arguments Comp_try {Completion} NewCompletion comps c m conds.
Arguments Comp_pass {Completion} NewCompletion conds cs comps m.
Arguments Command_CompCommands ToLower Ldist DefaultMinDist {Completion} NewCompletion cmd name.
Arguments state Value : clear implicits.
Arguments mkState {Value} st_cmd st_args st_vars st_v.
Arguments st_cmd {Value} s.
Arguments st_args {Value} s.
Arguments st_vars {Value} s.
Arguments st_v {Value} s.
Arguments step Value : clear implicits.
Arguments Next {Value} st.
Arguments Done {Value} vars r.
Arguments parseLong {Context Value} Vars_Set toBoolString flagOf ctx cmd s args vars.
Arguments parseShort_loop {Context Value} Vars_Set toBoolString flagOf ctx cmd v args vars.
Arguments parseShort {Context Value} Vars_Set toBoolString flagOf ctx cmd s args vars.
Arguments parse_step {Context Value} Expand Vars_Set toBoolString flagOf ctx st.
Arguments parse_loop {Context Value} Expand Vars_Set toBoolString flagOf ctx fuel st.
Arguments parse_from {Context Value} Expand Vars_Set toBoolString flagOf ctx st.
Arguments parse {Context Value} Expand Vars_Set toBoolString flagOf ctx cmd args vars.
Arguments Parse {Context Value} Expand Vars_Set toBoolString flagOf ctx root args vars.

(** ** Collaborators modelled from the spec *)

Section VarsSet.

Variable Context : Type.

(** The typed data a [Value] holds. *)
Variable Data : Type.

(** A fresh value of the flag's type ([Flag.New]) assigned the raw text;
    fails on text malformed for the type. *)
Variable fresh : Context -> Flag.t -> string -> error + Data.

(** An explicit assignment onto what the table holds for the flag: a scalar
    is overwritten, a list or a map is appended to or merged. *)
Variable assign : Context -> Flag.t -> option Data -> string -> error + Data.

(** A [Value] of the table: its data, and whether an explicit (command-line)
    assignment made it. *)
Record SetValue := mkSetValue {
  data : Data;
  wasSet : bool
}.

(** Modelled from the spec: [Vars.Set] is not under src/.  "Setting a flag
    goes through one entry point: Vars.Set(flag, rawText,
    isExplicitAssignment); for explicit assignments, repeated list/map flags
    append/merge rather than overwrite; for default population, overwrite is
    suppressed if an explicit value already exists unless the caller requests
    a forced overwrite" (the forced overwrite is the [delete] of
    [Command.Populate]); defaults are populated "so a descendant's default
    for a same-named flag overrides an ancestor's".  So a default assignment
    replaces what the table holds for the flag by a fresh value, unless that
    was assigned explicitly. *)
Definition Vars_Set_spec (ctx : Context) (vars : gmap string SetValue) (g : Flag.t)
    (rawText : string) (isExplicitAssignment : bool) : gmap string SetValue * option error :=
  if isExplicitAssignment then
    match assign ctx g (data <$> vars !! Flag.Name g) rawText with
    | inl err => (vars, Some err)
    | inr d => (<[Flag.Name g := mkSetValue d true]> vars, None)
    end
  else
    match vars !! Flag.Name g with
    | Some (mkSetValue _ true) => (vars, None)
    | _ =>
      match fresh ctx g rawText with
      | inl err => (vars, Some err)
      | inr d => (<[Flag.Name g := mkSetValue d false]> vars, None)
      end
    end.

End VarsSet.

Arguments SetValue Data : clear implicits.
Arguments mkSetValue {Data} data wasSet.
Arguments data {Data} s.
Arguments wasSet {Data} s.
Arguments Vars_Set_spec {Context Data} fresh assign ctx vars g rawText isExplicitAssignment.

(** Modelled from the spec: [Ldist] is not under src/.  "Edit distance:
    computed over case-folded rune sequences using the classic
    dynamic-programming Levenshtein recurrence (insertion/deletion/
    substitution cost 1 each); no transposition discount." *)
Fixpoint Ldist_spec (a b : list rune) : Z :=
  match a with
  | [] => Z.of_nat (List.length b)
  | x :: a' =>
    (fix row (b : list rune) : Z :=
       match b with
       | [] => Z.of_nat (List.length a)
       | y :: b' =>
         Z.min (Ldist_spec a' b + 1)
           (Z.min (row b' + 1)
              (Ldist_spec a' b' + (if N.eqb x y then 0 else 1)))
       end) b
  end%Z.

(** [strings.ToLower] on text of the ASCII range (Go lowers every Unicode
    letter; on such text the two agree). *)
Definition lower_byte (c : ascii) : ascii :=
  let n := N_of_ascii c in
  if between 65 90 n then ascii_of_N (n + 32) else c.

Fixpoint ToLower_ascii (s : string) : string :=
  match s with
  | EmptyString => EmptyString
  | String c t => String (lower_byte c) (ToLower_ascii t)
  end.

(** ** The specification's words *)

(** "the matching child by exact name or exact alias" *)
Definition names_child (name : string) (c : Command.t) : Prop :=
  Command.Name c = name \/ name ∈ Command.Aliases c.

(** "first match wins": [c] is the first element of [cs], in declaration
    order, that satisfies [P]. *)
Definition first_match {A : Type} (P : A -> Prop) (cs : list A) (c : A) : Prop :=
  exists before after, cs = before ++ c :: after /\ P c /\ Forall (fun x => ~ P x) before.

(** "walks a sequence of names greedily, stopping at the first name with no
    match and returning the deepest node reached" *)
Inductive resolves : Command.t -> list string -> Command.t -> Prop :=
| resolves_end (c : Command.t) :
    resolves c [] c
| resolves_stop (c : Command.t) (name : string) (names : list string) :
    Forall (fun x => ~ names_child name x) (Command.Commands c) ->
    resolves c (name :: names) c
| resolves_descend (c child d : Command.t) (name : string) (names : list string) :
    first_match (names_child name) (Command.Commands c) child ->
    resolves child names d ->
    resolves c (name :: names) d.

(** ** A concrete tool

    A small command tree and concrete collaborators, on which the general
    statements below are put to work. *)

Module Tool.

(** [NewFlag]'s defaults for the fields the options leave alone. *)
Definition flag (typ : Type_) (name short : string) (def : option any) (noArg : bool)
    (noArgDef : option any) : Flag.t :=
  Flag.mk typ StringT StringT name "" short [] "" def noArg noArgDef (-1) false false "".

(** [NewCommand]'s defaults for the fields the options leave alone. *)
Definition command (parent : option Command.t) (name : string) (aliases suggested : list string)
    (flags : list Flag.t) (subs : list Command.t) : Command.t :=
  Command.mk parent name "" aliases suggested (Some (FlagSet.mk flags)) subs None
    false (-1) false false "".

Definition verbose : Flag.t :=
  flag BoolT "verbose" "v" None true (Some (AnyString "yes")).
Definition all : Flag.t :=
  flag BoolT "all" "a" (Some (AnyBool false)) true (Some (AnyBool true)).
Definition file : Flag.t :=
  flag StringT "file" "f" (Some (AnyString "out.txt")) false None.
Definition flag_ : Flag.t :=
  flag StringT "flag" "" None false None.
Definition help : Flag.t :=
  flag HookT "help" "h" (Some (AnyFunc "help")) true (Some (AnyString "")).

(** The root as its sub commands see it through [Parent]. *)
Definition above : Command.t :=
  command None "cmd" [] [] [verbose; all; file; flag_; help] [].

Definition push : Command.t := command (Some above) "push" ["p"] [] [] [].
Definition pull : Command.t := command (Some above) "pull" [] ["get"] [] [].
Definition fetch : Command.t := command (Some above) "fetch" [] [] [] [].

Definition root : Command.t :=
  command None "cmd" [] [] [verbose; all; file; flag_; help] [push; pull; fetch].

(** Two sub commands whose names differ by case only. *)
Definition Foo : Command.t := command None "Foo" [] [] [] [].
Definition foo : Command.t := command None "foo" [] [] [] [].
Definition cased : Command.t := command None "tool" [] [] [] [Foo; foo].

(** The context holds nothing; a default expands to its text. *)
Definition Expand (_ : unit) (d : any) : error + string :=
  match d with
  | AnyString s => inr s
  | AnyBool true => inr "true"
  | AnyBool false => inr "false"
  | AnyInt _ => inr "0"
  | AnyFunc _ => inl (ErrExternal "cannot expand a func")
  end.

(** A no-argument flag toggles its default. *)
Definition toBoolString (d : option any) : string :=
  match d with
  | Some (AnyBool true) => "false"
  | _ => "true"
  end.

(** Values are kept as their text. *)
Definition Set_ : unit -> gmap string (SetValue string) -> Flag.t -> string -> bool
    -> gmap string (SetValue string) * option error :=
  Vars_Set_spec (fun _ _ s => inr s) (fun _ _ _ s => inr s).

(** A [Vars.Set] that fails on a hook flag and is [Set_] on the others. *)
Definition Set_no_hook (ctx : unit) (vars : gmap string (SetValue string)) (g : Flag.t)
    (s : string) (explicit : bool) : gmap string (SetValue string) * option error :=
  if bool_decide (Flag.Type' g = HookT) then (∅, Some ErrInvalidValue)
  else Set_ ctx vars g s explicit.

(** The flag of a command or of its parents under a long or a short name. *)
Definition flagOf (cmd : Command.t) (name : string) : option Flag.t :=
  match Command_Flag cmd name true false with
  | Some g => Some g
  | None => Command_Flag cmd name true true
  end.

Definition Populate := Command_Populate Expand Set_.
Definition step_of := parse_step Expand Set_ toBoolString flagOf.
Definition Parse_ := Parse Expand Set_ toBoolString flagOf.
Definition Suggest := Command_Suggest ToLower_ascii Ldist_spec 2.
Definition CompCommands :=
  Command_CompCommands ToLower_ascii Ldist_spec 2 (fun name usage : string => (name, usage)).

End Tool.

(** ** Properties of the tree resolver *)

Section FirstMatch.

Context {A : Type} (p : A -> bool).

Lemma find_first_match (cs : list A) (c : A) :
  List.find p cs = Some c <-> first_match (fun x => p x = true) cs c.
Proof.
  split.
  - induction cs as [|x cs IH]; simpl; [discriminate|].
    destruct (p x) eqn:Hx.
    + intros [= <-]. exists [], cs. repeat split; auto.
    + intros H. destruct (IH H) as (before & after & -> & Hc & Hb).
      exists (x :: before), after. repeat split; auto.
      constructor; [congruence | exact Hb].
  - intros (before & after & -> & Hc & Hb).
    induction Hb as [|x before Hx _ IH]; simpl.
    + now rewrite Hc.
    + destruct (p x); [congruence | exact IH].
Qed.

Lemma find_none (cs : list A) :
  List.find p cs = None <-> Forall (fun x => ~ p x = true) cs.
Proof.
  induction cs as [|x cs IH]; simpl.
  - split; [constructor | reflexivity].
  - destruct (p x) eqn:Hx.
    + split; [discriminate|]. intros H. inversion H; subst. congruence.
    + rewrite IH. split.
      * intros H. constructor; [congruence | exact H].
      * intros H. now inversion H.
Qed.

Lemma first_match_unique (P : A -> Prop) (cs : list A) (c d : A) :
  first_match P cs c -> first_match P cs d -> c = d.
Proof.
  intros (b1 & a1 & -> & Hc & Hb1). revert d.
  induction Hb1 as [|x b1 Hx Hb1 IH]; intros d (b2 & a2 & E & Hd & Hb2).
  - destruct b2 as [|y b2]; simpl in E.
    + congruence.
    + injection E as <- _. inversion Hb2; subst. contradiction.
  - destruct b2 as [|y b2]; simpl in E.
    + injection E as <- _. contradiction.
    + injection E as <- E. inversion Hb2; subst.
      apply IH. exists b2, a2. auto.
Qed.

Lemma first_match_iff (P Q : A -> Prop) (cs : list A) (c : A) :
  (forall x, P x <-> Q x) -> first_match P cs c -> first_match Q cs c.
Proof.
  intros HPQ (before & after & -> & Hc & Hb).
  exists before, after. repeat split; [now apply HPQ|].
  eapply Forall_impl; [exact Hb|]. intros x Hx HQ. apply Hx, HPQ, HQ.
Qed.

End FirstMatch.

Lemma Contains_elem_of (l : list string) (s : string) :
  Contains l s = true <-> s ∈ l.
Proof.
  unfold Contains. rewrite existsb_exists. split.
  - intros (x & Hin & Heq). apply String.eqb_eq in Heq. subst.
    now apply list_elem_of_In.
  - intros Hin. exists s. split; [now apply list_elem_of_In | apply String.eqb_refl].
Qed.

Definition names_childb (name : string) (c : Command.t) : bool :=
  String.eqb (Command.Name c) name || Contains (Command.Aliases c) name.

Lemma names_childb_spec (name : string) (c : Command.t) :
  names_childb name c = true <-> names_child name c.
Proof.
  unfold names_childb, names_child.
  rewrite orb_true_iff, String.eqb_eq, Contains_elem_of. reflexivity.
Qed.

Lemma Command_Command_loop_find (cs : list Command.t) (name : string) :
  Command_Command_loop cs name = List.find (names_childb name) cs.
Proof.
  induction cs as [|c cs IH]; simpl; [reflexivity|].
  unfold names_childb at 1. now rewrite IH.
Qed.

Lemma Command_Command_Some (cmd c : Command.t) (name : string) :
  Command_Command cmd name = Some c <->
  first_match (names_child name) (Command.Commands cmd) c.
Proof.
  unfold Command_Command. rewrite Command_Command_loop_find, find_first_match.
  split; apply first_match_iff; intros x; now rewrite names_childb_spec.
Qed.

Lemma Command_Command_None (cmd : Command.t) (name : string) :
  Command_Command cmd name = None <->
  Forall (fun x => ~ names_child name x) (Command.Commands cmd).
Proof.
  unfold Command_Command. rewrite Command_Command_loop_find, find_none.
  split; intros H; (eapply Forall_impl; [exact H|]);
    intros x Hx Hn; apply Hx; now apply names_childb_spec.
Qed.

Lemma Lookup_resolves (names : list string) (cmd : Command.t) :
  resolves cmd names (Command_Lookup cmd names).
Proof.
  revert cmd. induction names as [|name names IH]; intros cmd; simpl.
  - constructor.
  - destruct (Command_Command cmd name) as [c|] eqn:Hc.
    + eapply resolves_descend; [apply Command_Command_Some; exact Hc | apply IH].
    + apply resolves_stop. now apply Command_Command_None.
Qed.

Lemma resolves_Lookup (cmd d : Command.t) (names : list string) :
  resolves cmd names d -> d = Command_Lookup cmd names.
Proof.
  induction 1 as [c | c name names Hnone | c child d name names Hfirst _ IH]; simpl.
  - reflexivity.
  - apply Command_Command_None in Hnone. now rewrite Hnone.
  - apply Command_Command_Some in Hfirst. now rewrite Hfirst.
Qed.

(** C6: [Lookup] is total; on the empty list it returns the command itself,
    and on any list of names it returns the node the greedy resolution of the
    specification reaches, which is the only such node. *)
Theorem Lookup_greedy (C : Command.t) (P : list string) :
  Command_Lookup C [] = C
  /\ resolves C P (Command_Lookup C P)
  /\ (forall d, resolves C P d -> d = Command_Lookup C P).
Proof.
  split; [reflexivity|]. split.
  - apply Lookup_resolves.
  - intros d. apply resolves_Lookup.
Qed.

(** ** Properties of the suggestion engine *)

Section SuggestProps.

Variable ToLower : string -> string.
Variable Ldist : list rune -> list rune -> Z.
Variable DefaultMinDist : Z.

Local Abbreviation Suggest := (Command_Suggest ToLower Ldist DefaultMinDist).

(** "the configured edit-distance threshold (DefaultMinDist when unset)" *)
Definition threshold (cmd : Command.t) : Z :=
  match Command.Help cmd with
  | Some help =>
    if (0 <? CommandHelp.MinDist help)%Z then CommandHelp.MinDist help else DefaultMinDist
  | None => DefaultMinDist
  end.

(** "any name/alias/suggested-name within the threshold distance of the
    token (case-insensitive)" *)
Definition near (t : Z) (token : string) (c : Command.t) : Prop :=
  exists name,
    name ∈ Command.Name c :: Command.Aliases c ++ Command.Suggested c
    /\ (Ldist (runes (ToLower token)) (runes (ToLower name)) <= t)%Z.

Lemma minDistOf_threshold (cmd : Command.t) :
  minDistOf DefaultMinDist cmd = threshold cmd.
Proof.
  unfold minDistOf, threshold.
  destruct (Command.Help cmd) as [help|]; [|reflexivity].
  destruct (Z.leb_spec (CommandHelp.MinDist help) 0), (Z.ltb_spec 0 (CommandHelp.MinDist help));
    first [reflexivity | lia].
Qed.

Lemma Suggest_names_spec (arg : list rune) (t : Z) (names : list string) :
  Suggest_names ToLower Ldist arg t names = true <->
  exists name, name ∈ names /\ (Ldist arg (runes (ToLower name)) <= t)%Z.
Proof.
  induction names as [|name names IH]; simpl.
  - split; [discriminate|]. intros (name & Hin & _). inversion Hin.
  - destruct (Z.leb_spec (Ldist arg (runes (ToLower name))) t) as [Hle|Hgt].
    + split; [|reflexivity]. intros _. exists name. split; [left | exact Hle].
    + rewrite IH. split.
      * intros (x & Hin & Hx). exists x. split; [now right | exact Hx].
      * intros (x & Hin & Hx). inversion Hin; subst; [lia|]. now exists x.
Qed.

Definition nearb (t : Z) (token : string) (c : Command.t) : bool :=
  Suggest_names ToLower Ldist (runes (ToLower token)) t
    (prepend (Command.Aliases c) [Command.Name c] ++ Command.Suggested c).

Lemma nearb_spec (t : Z) (token : string) (c : Command.t) :
  nearb t token c = true <-> near t token c.
Proof. unfold nearb, near. now rewrite Suggest_names_spec. Qed.

Lemma Suggest_loop_find (t : Z) (token : string) (cs : list Command.t) :
  Suggest_loop ToLower Ldist (runes (ToLower token)) t cs = List.find (nearb t token) cs.
Proof.
  induction cs as [|c cs IH]; simpl; [reflexivity|].
  unfold nearb at 1. now rewrite IH.
Qed.

(** C7: on a non-empty argument list [Suggest] returns the [SuggestionError]
    naming the first sub command, in declaration order, one of whose name,
    aliases and suggested names is within the threshold of the case-folded
    first argument; with no such sub command it returns the unknown-command
    error carrying the argument and the command's name. *)
Theorem Suggest_first_near (C : Command.t) (arg : string) (rest : list string) :
  (exists c,
      first_match (near (threshold C) arg) (Command.Commands C) c
      /\ Suggest C (arg :: rest) = Some (SuggestionError C arg c))
  \/ (Forall (fun c => ~ near (threshold C) arg c) (Command.Commands C)
      /\ Suggest C (arg :: rest)
         = Some (ErrorfSuggestion ErrUnknownCommand arg (Command.Name C))).
Proof.
  unfold Command_Suggest.
  rewrite minDistOf_threshold, Suggest_loop_find.
  destruct (List.find _ _) as [c|] eqn:Hfind.
  - left. exists c. split; [|reflexivity].
    apply find_first_match in Hfind.
    revert Hfind. apply first_match_iff. intros x. apply nearb_spec.
  - right. split; [|reflexivity].
    apply find_none in Hfind.
    eapply Forall_impl; [exact Hfind|].
    intros x Hx Hn. apply Hx. now apply nearb_spec.
Qed.

End SuggestProps.

(** ** Properties of the token parser *)

Arguments Index : simpl never.
Arguments runes : simpl never.
Arguments of_runes : simpl never.
Arguments of_rune : simpl never.
Arguments newFlagError : simpl never.
Arguments newCommandError : simpl never.

Section ParserProps.

Variable Context : Type.
Variable Value : Type.
Variable Expand : Context -> any -> error + string.
Variable Vars_Set :
  Context -> gmap string Value -> Flag.t -> string -> bool -> gmap string Value * option error.
Variable toBoolString : option any -> string.
Variable flagOf : Command.t -> string -> option Flag.t.

Local Abbreviation Vars := (gmap string Value).
Local Abbreviation long := (parseLong Vars_Set toBoolString flagOf).
Local Abbreviation short_loop := (parseShort_loop Vars_Set toBoolString flagOf).
Local Abbreviation short := (parseShort Vars_Set toBoolString flagOf).
Local Abbreviation step_of := (parse_step Expand Vars_Set toBoolString flagOf).
Local Abbreviation loop := (parse_loop Expand Vars_Set toBoolString flagOf).
Local Abbreviation run := (parse_from Expand Vars_Set toBoolString flagOf).

(** The states the loop of [parse] goes through. *)
Inductive steps (ctx : Context) : state Value -> state Value -> Prop :=
| steps_refl (st : state Value) :
    steps ctx st st
| steps_next (st st' st'' : state Value) :
    step_of ctx st = Next st' -> steps ctx st' st'' -> steps ctx st st''.

(** *** Termination: every iteration that goes on takes a token *)

Ltac case_set :=
  match goal with
  | |- context [Vars_Set ?c ?v ?g ?s ?b] =>
    let vars' := fresh "vars'" in
    let e := fresh "e" in
    let E := fresh "Eset" in
    destruct (Vars_Set c v g s b) as [vars' [e|]] eqn:E
  end.

Lemma parseLong_consumes ctx cmd s args vars vars' args' :
  long ctx cmd s args vars = (vars', Ok args') ->
  List.length args' <= List.length args.
Proof.
  unfold parseLong.
  destruct (CutEq (TrimPrefix s "--")) as [[arg value] ok].
  destruct (flagOf cmd arg) as [g|]; [|discriminate].
  destruct ok; [|destruct (Flag.NoArg g); [|destruct args as [|a args0]]];
    try discriminate; case_set; intros [= <- <-]; simpl; lia.
Qed.

Lemma parseShort_loop_consumes ctx cmd v args vars vars' args' :
  short_loop ctx cmd v args vars = (vars', Ok args') ->
  List.length args' <= List.length args.
Proof.
  revert vars. induction v as [|r v1 IH]; intros vars; simpl.
  - intros [= <- <-]. lia.
  - destruct (flagOf cmd (of_rune r)) as [g|]; [|discriminate].
    destruct (Flag.NoArg g).
    + destruct (Index (r :: v1) 61%N =? 1)%Z; case_set; try discriminate.
      * intros [= <- <-]. lia.
      * apply IH.
    + destruct (List.length v1), args as [|a args0]; try discriminate;
        case_set; intros [= <- <-]; simpl; lia.
Qed.

Lemma parse_step_consumes ctx st st' :
  step_of ctx st = Next st' ->
  List.length (st_args st') < List.length (st_args st).
Proof.
  destruct st as [cmd args vars v]. unfold parse_step.
  destruct args as [|s args]; [discriminate|]. simpl.
  destruct (bare s).
  - destruct (if Nat.eqb (List.length v) 0 then Command_Command cmd s else None) as [c|].
    + destruct (Command_Populate Expand Vars_Set c ctx false false vars) as [vars' [e|]];
        [discriminate|]. intros [= <-]. simpl. lia.
    + intros [= <-]. simpl. lia.
  - destruct (String.eqb s "--"); [discriminate|].
    destruct (bool_decide _).
    + destruct (long ctx cmd s args vars) as [vars' [args'|e]] eqn:E; [|discriminate].
      intros [= <-]. simpl. apply parseLong_consumes in E. lia.
    + destruct (short ctx cmd s args vars) as [vars' [args'|e]] eqn:E; [|discriminate].
      intros [= <-]. simpl. apply parseShort_loop_consumes in E. lia.
Qed.

Lemma parse_loop_fuel ctx fuel1 :
  forall fuel2 st,
    List.length (st_args st) < fuel1 ->
    List.length (st_args st) < fuel2 ->
    loop ctx fuel1 st = loop ctx fuel2 st.
Proof.
  induction fuel1 as [|fuel1 IH]; intros fuel2 st H1 H2; [lia|].
  destruct fuel2 as [|fuel2]; [lia|]. simpl.
  destruct (step_of ctx st) as [st'|vars r] eqn:E; [|reflexivity].
  apply parse_step_consumes in E. apply IH; lia.
Qed.

Lemma parse_from_next ctx st st' :
  step_of ctx st = Next st' -> run ctx st = run ctx st'.
Proof.
  intros E. unfold parse_from at 1. simpl. rewrite E.
  apply parse_loop_fuel; [|lia]. apply parse_step_consumes in E. lia.
Qed.

Lemma parse_from_done ctx st vars r :
  step_of ctx st = Done vars r -> run ctx st = Some (vars, r).
Proof. intros E. unfold parse_from. simpl. now rewrite E. Qed.

Lemma parse_from_steps ctx st st' :
  steps ctx st st' -> run ctx st = run ctx st'.
Proof.
  induction 1 as [st | st st' st'' E _ IH]; [reflexivity|].
  rewrite <- IH. now apply parse_from_next.
Qed.

(** [parse] returns: the fuel [parse_from] gives the loop is enough. *)
Lemma parse_from_total ctx st :
  exists vars r, run ctx st = Some (vars, r).
Proof.
  unfold parse_from.
  remember (S (List.length (st_args st))) as fuel eqn:Hfuel.
  assert (Hlt : List.length (st_args st) < fuel) by lia. clear Hfuel.
  revert st Hlt. induction fuel as [|fuel IH]; intros st Hlt; [lia|]. simpl.
  destruct (step_of ctx st) as [st'|vars r] eqn:E; [|eauto].
  apply IH. apply parse_step_consumes in E. lia.
Qed.

(** *** Positional arguments end sub-command descent *)

Lemma positional_not_first (v : list string) :
  v <> [] -> Nat.eqb (List.length v) 0 = false.
Proof. destruct v; [congruence | reflexivity]. Qed.

Lemma bare_after_positional ctx cmd s rest vars v :
  v <> [] -> bare s = true ->
  step_of ctx (mkState cmd (s :: rest) vars v) = Next (mkState cmd rest vars (v ++ [s])).
Proof.
  intros Hv Hs. unfold parse_step. now rewrite Hs, (positional_not_first v Hv).
Qed.

Lemma next_after_positional ctx st st' :
  st_v st <> [] -> step_of ctx st = Next st' ->
  st_cmd st' = st_cmd st /\ exists more, st_v st' = st_v st ++ more.
Proof.
  destruct st as [cmd args vars v]. intros Hv. simpl in Hv. cbn [st_v st_cmd].
  destruct args as [|s args]; [discriminate|].
  destruct (bare s) eqn:Hs.
  - rewrite (bare_after_positional _ _ _ _ _ _ Hv Hs). intros [= <-]. simpl. eauto.
  - unfold parse_step. rewrite Hs.
    destruct (String.eqb s "--"); [discriminate|].
    destruct (bool_decide _).
    + destruct (long ctx cmd s args vars) as [vars' [args'|e]]; [|discriminate].
      intros [= <-]. simpl. split; [reflexivity|]. exists []. now rewrite app_nil_r.
    + destruct (short ctx cmd s args vars) as [vars' [args'|e]]; [|discriminate].
      intros [= <-]. simpl. split; [reflexivity|]. exists []. now rewrite app_nil_r.
Qed.

Lemma done_after_positional ctx st vars c pos :
  st_v st <> [] -> step_of ctx st = Done vars (Ok (c, pos)) ->
  c = st_cmd st /\ exists more, pos = st_v st ++ more.
Proof.
  destruct st as [cmd args vars0 v]. intros Hv. simpl in Hv. cbn [st_v st_cmd].
  destruct args as [|s args].
  - intros [= <- <- <-]. split; [reflexivity|]. exists []. now rewrite app_nil_r.
  - destruct (bare s) eqn:Hs.
    + now rewrite (bare_after_positional _ _ _ _ _ _ Hv Hs).
    + unfold parse_step. rewrite Hs.
      destruct (String.eqb s "--"); [intros [= <- <- <-]; eauto|].
      destruct (bool_decide _).
      * destruct (long ctx cmd s args vars0) as [vars' [args'|e]]; discriminate.
      * destruct (short ctx cmd s args vars0) as [vars' [args'|e]]; discriminate.
Qed.

Lemma steps_after_positional ctx st st' :
  st_v st <> [] -> steps ctx st st' ->
  st_cmd st' = st_cmd st /\ exists more, st_v st' = st_v st ++ more.
Proof.
  intros Hv Hsteps. induction Hsteps as [st | st st' st'' E _ IH].
  - split; [reflexivity|]. exists []. now rewrite app_nil_r.
  - destruct (next_after_positional _ _ _ Hv E) as [Hc [more Hm]].
    destruct IH as [Hc' [more' Hm']].
    + rewrite Hm. destruct (st_v st); [congruence | discriminate].
    + split; [congruence|]. exists (more ++ more'). now rewrite Hm', Hm, app_assoc.
Qed.

Lemma result_after_positional ctx fuel :
  forall st vars c pos,
    st_v st <> [] -> loop ctx fuel st = Some (vars, Ok (c, pos)) ->
    c = st_cmd st /\ exists more, pos = st_v st ++ more.
Proof.
  induction fuel as [|fuel IH]; intros st vars c pos Hv; [discriminate|]. simpl.
  destruct (step_of ctx st) as [st'|vars' r] eqn:E.
  - intros Hrun. destruct (next_after_positional _ _ _ Hv E) as [Hc [more Hm]].
    destruct (IH st' vars c pos) as [Hc' [more' Hm']]; [|exact Hrun|].
    + rewrite Hm. destruct (st_v st); [congruence | discriminate].
    + split; [congruence|]. exists (more ++ more'). now rewrite Hm', Hm, app_assoc.
  - intros [= -> ->]. eapply done_after_positional; eauto.
Qed.

(** C1: once the positional list is not empty, in every state the loop of
    [parse] goes through afterwards the cursor command is still the same and
    the positional list has only grown; a bare token at the head of the
    residual tokens is appended to the positional list, the cursor staying
    where it is; and [parse] returns, and when it returns a command that
    command is that same cursor, with a positional list that starts with the
    one collected so far. *)
Theorem positional_ends_descent ctx (st st' : state Value) :
  st_v st <> [] ->
  steps ctx st st' ->
  st_cmd st' = st_cmd st
  /\ (exists more, st_v st' = st_v st ++ more)
  /\ (forall s rest,
        st_args st' = s :: rest -> bare s = true ->
        step_of ctx st'
        = Next (mkState (st_cmd st) rest (st_vars st') (st_v st' ++ [s])))
  /\ (exists vars r,
        run ctx st = Some (vars, r)
        /\ match r with
           | Ok (c, pos) => c = st_cmd st /\ exists more, pos = st_v st ++ more
           | Err _ => True
           end).
Proof.
  intros Hv Hsteps.
  destruct (steps_after_positional _ _ _ Hv Hsteps) as [Hc [more Hm]].
  split; [exact Hc|]. split; [now exists more|]. split.
  - intros s rest Hargs Hs. destruct st' as [cmd' args' vars' v']. simpl in *. subst.
    apply bare_after_positional; [|exact Hs].
    destruct (st_v st); [congruence | discriminate].
  - destruct (parse_from_total ctx st) as (vars & r & E).
    exists vars, r. split; [exact E|].
    destruct r as [[c pos]|e]; [|exact I].
    eapply result_after_positional; [exact Hv | exact E].
Qed.

(** *** The terminator *)

Lemma terminator_not_bare : bare "--" = false.
Proof. reflexivity. Qed.

(** C2: when the loop of [parse] reaches a state whose leading token is
    ["--"], that iteration ends the loop, and [parse] returns the cursor
    command of that state with the positionals collected so far followed by
    all the tokens after the ["--"], in their order; the table is the one of
    that state, so none of those tokens was read as a flag. *)
Theorem terminator_stops ctx (st0 st : state Value) (rest : list string) :
  steps ctx st0 st ->
  st_args st = "--" :: rest ->
  step_of ctx st = Done (st_vars st) (Ok (st_cmd st, st_v st ++ rest))
  /\ run ctx st0 = Some (st_vars st, Ok (st_cmd st, st_v st ++ rest)).
Proof.
  intros Hsteps Hargs.
  assert (E : step_of ctx st = Done (st_vars st) (Ok (st_cmd st, st_v st ++ rest))).
  { destruct st as [cmd args vars v]. simpl in *. subst args. reflexivity. }
  split; [exact E|].
  rewrite (parse_from_steps _ _ _ Hsteps). now apply parse_from_done.
Qed.

(** *** Text of the ASCII range: runes are bytes *)

Lemma decode_ascii (bs : list N) :
  forallb (fun b => (b <? 0x80)%N) bs = true -> decode bs = bs.
Proof.
  induction bs as [|b bs IH]; [reflexivity|].
  cbn [forallb]. intros [Hb Hbs]%andb_true_iff.
  cbn [decode]. rewrite Hb. f_equal. now apply IH.
Qed.

Lemma encode_ascii (bs : list N) :
  forallb (fun b => (b <? 0x80)%N) bs = true -> List.concat (map encode bs) = bs.
Proof.
  induction bs as [|b bs IH]; [reflexivity|].
  cbn [forallb]. intros [Hb Hbs]%andb_true_iff.
  cbn [map List.concat]. unfold encode at 1. rewrite Hb. simpl. f_equal. now apply IH.
Qed.

Lemma of_bytes_bytes (s : string) : of_bytes (bytes s) = s.
Proof.
  unfold of_bytes, bytes. rewrite map_map.
  induction s as [|c s IH]; [reflexivity|].
  simpl. now rewrite ascii_N_embedding, IH.
Qed.

Lemma runes_ascii (s : string) : ascii_only s = true -> runes s = bytes s.
Proof. apply decode_ascii. Qed.

Lemma of_runes_ascii (s : string) : ascii_only s = true -> of_runes (bytes s) = s.
Proof.
  intros H. unfold of_runes. rewrite (encode_ascii _ H). apply of_bytes_bytes.
Qed.

Lemma Index_lower (v : list rune) (r : rune) : (-1 <= Index v r)%Z.
Proof.
  induction v as [|x v IH]; unfold Index; fold Index; [lia|].
  destruct (x =? r)%N; [lia|]. destruct (Z.ltb_spec (Index v r) 0); lia.
Qed.

Lemma Index_one (x y : rune) (v : list rune) (r : rune) :
  y <> r -> (Index (x :: y :: v) r =? 1)%Z = false.
Proof.
  intros Hy. apply Z.eqb_neq.
  unfold Index; fold Index.
  destruct (x =? r)%N; [lia|].
  destruct (N.eqb_spec y r) as [|_]; [contradiction|].
  pose proof (Index_lower v r).
  destruct (Z.ltb_spec (Index v r) 0); simpl; try lia.
  destruct (Z.ltb_spec (Index v r + 1) 0); lia.
Qed.

(** [s] holds no ['=']. *)
Definition has_eq (s : string) : bool := snd (CutEq s).

Lemma CutEq_whole (s : string) : has_eq s = false -> CutEq s = (s, "", false).
Proof.
  unfold has_eq. induction s as [|c s IH]; [reflexivity|]. simpl.
  destruct (Ascii.eqb c "="); [discriminate|].
  destruct (CutEq s) as [[b a] ok]. simpl. intros ->.
  now injection (IH eq_refl) as -> ->.
Qed.

(** *** Long flags *)

Lemma long_token name :
  name <> "" ->
  bare ("--" +:+ name) = false
  /\ String.eqb ("--" +:+ name) "--" = false
  /\ bool_decide (String.get 1 ("--" +:+ name) = Some "-"%char) = true.
Proof.
  intros Hname. destruct name as [|c name]; [congruence|]. repeat split.
Qed.

(** C3: for a long flag token with no ['='] that names a no-argument flag
    [g], [parseLong] commits a value through [Vars.Set] with the explicit
    mark and takes no token from [args]; the value is [toBoolString(g.Def)],
    computed from the flag's default, whatever [g.NoArgDef] (documented as
    "the flag's default value when no argument was passed") holds. *)
Theorem long_noarg_value ctx cmd (name : string) (args : list string) (vars : Vars) g :
  flagOf cmd name = Some g ->
  Flag.NoArg g = true ->
  has_eq name = false ->
  long ctx cmd ("--" +:+ name) args vars
  = match Vars_Set ctx vars g (toBoolString (Flag.Def g)) true with
    | (vars', Some err) => (vars', Err (newFlagError name err))
    | (vars', None) => (vars', Ok args)
    end.
Proof.
  intros Hg Hno Hname. unfold parseLong.
  change (TrimPrefix ("--" +:+ name) "--") with name.
  rewrite (CutEq_whole _ Hname), Hg, Hno. reflexivity.
Qed.

(** *** Short flag clusters *)

(** The scan of a cluster over [pre], runes that each resolve to a
    no-argument flag satisfied with [toBoolString(g.Def)] (no ['='] follows
    the rune, and [Vars.Set] accepts the value); [tail] is what follows [pre]
    in the cluster, and the last table is what those assignments leave. *)
Inductive toggles (ctx : Context) (cmd : Command.t)
  : list rune -> list rune -> Vars -> Vars -> Prop :=
| toggles_nil (tail : list rune) (vars : Vars) :
    toggles ctx cmd [] tail vars vars
| toggles_cons (r : rune) (pre tail : list rune) (g : Flag.t) (vars vars1 vars2 : Vars) :
    flagOf cmd (of_rune r) = Some g ->
    Flag.NoArg g = true ->
    (Index (r :: pre ++ tail) 61%N =? 1)%Z = false ->
    Vars_Set ctx vars g (toBoolString (Flag.Def g)) true = (vars1, None) ->
    toggles ctx cmd pre tail vars1 vars2 ->
    toggles ctx cmd (r :: pre) tail vars vars2.

Lemma short_loop_toggles ctx cmd pre tail args vars vars' :
  toggles ctx cmd pre tail vars vars' ->
  short_loop ctx cmd (pre ++ tail) args vars = short_loop ctx cmd tail args vars'.
Proof.
  induction 1 as [tail vars | r pre tail g vars vars1 vars2 Hg Hno Hidx Hset _ IH];
    [reflexivity|].
  cbn [app parseShort_loop]. now rewrite Hg, Hno, Hidx, Hset.
Qed.

Lemma short_loop_missing ctx cmd r vars g :
  flagOf cmd (of_rune r) = Some g ->
  Flag.NoArg g = false ->
  short_loop ctx cmd [r] [] vars = (vars, Err (newFlagError (of_rune r) ErrMissingArgument)).
Proof. intros Hg Hno. cbn [parseShort_loop]. now rewrite Hg, Hno. Qed.

(** C4: when the last token left is a long flag ["--name"] that resolves to a
    flag [g] requiring an argument, or a cluster whose scan reaches the short
    name of such a flag with nothing after it, [parse] fails with the
    missing-argument error naming the flag; the table it leaves is the one
    before the token (after the no-argument flags scanned before [g] in the
    cluster): [Vars.Set] is not called for [g]. *)
Theorem missing_argument ctx (st0 st : state Value) (g : Flag.t) :
  steps ctx st0 st ->
  Flag.NoArg g = false ->
  (forall name,
      st_args st = ["--" +:+ name] ->
      name <> "" ->
      has_eq name = false ->
      flagOf (st_cmd st) name = Some g ->
      run ctx st0 = Some (st_vars st, Err (newFlagError name ErrMissingArgument)))
  /\ (forall s pre r vars',
        st_args st = [s] ->
        bare s = false ->
        String.get 1 s <> Some "-"%char ->
        runes (from 1 s) = pre ++ [r] ->
        toggles ctx (st_cmd st) pre [r] (st_vars st) vars' ->
        flagOf (st_cmd st) (of_rune r) = Some g ->
        run ctx st0 = Some (vars', Err (newFlagError (of_rune r) ErrMissingArgument))).
Proof.
  intros Hsteps Hno. rewrite (parse_from_steps _ _ _ Hsteps).
  destruct st as [cmd args vars v]. cbn [st_args st_cmd st_vars]. split.
  - intros name -> Hname Heq Hg. apply parse_from_done.
    destruct (long_token name Hname) as (Hb & Ht & Hl).
    unfold parse_step. rewrite Hb, Ht, Hl. unfold parseLong.
    change (TrimPrefix ("--" +:+ name) "--") with name.
    now rewrite (CutEq_whole _ Heq), Hg, Hno.
  - intros s pre r vars' -> Hb Hl Hrunes Htog Hg. apply parse_from_done.
    unfold parse_step. rewrite Hb.
    destruct (String.eqb_spec s "--") as [->|_]; [now contradiction Hl|].
    rewrite bool_decide_eq_false_2 by exact Hl.
    unfold parseShort. rewrite Hrunes, (short_loop_toggles _ _ _ _ _ _ _ Htog).
    now rewrite (short_loop_missing _ _ _ _ _ Hg Hno).
Qed.

Lemma of_rune_byte (f : ascii) :
  (N_of_ascii f <? 0x80)%N = true -> of_rune (N_of_ascii f) = String f "".
Proof.
  intros Hf. unfold of_rune, of_runes. cbn [map List.concat].
  unfold encode. rewrite Hf. unfold of_bytes. simpl. now rewrite ascii_N_embedding.
Qed.

(** C5: for the token ["-" f value], with [f] the short name of a flag [g]
    that takes an argument and [value] a non-empty text of the ASCII range
    that does not start with ['='], [parseShort] commits [value] to [g]
    through [Vars.Set] with the explicit mark and returns [args] as it got
    them: no following token is taken, and no character of [value] is looked
    up as a flag.  The loop of [parse] goes on with the tokens after the
    cluster. *)
Theorem embedded_short_value ctx cmd (f : ascii) (value : string) (args : list string)
    (vars : Vars) (g : Flag.t) :
  flagOf cmd (String f "") = Some g ->
  Flag.NoArg g = false ->
  (N_of_ascii f <? 0x80)%N = true ->
  ascii_only value = true ->
  value <> "" ->
  HasPrefix value "=" = false ->
  short ctx cmd (String "-" (String f value)) args vars
  = match Vars_Set ctx vars g value true with
    | (vars', Some err) => (vars', Err (newFlagError (String f "") err))
    | (vars', None) => (vars', Ok args)
    end
  /\ (f <> "-"%char ->
      forall v,
        step_of ctx (mkState cmd (String "-" (String f value) :: args) vars v)
        = match Vars_Set ctx vars g value true with
          | (vars', Some err) => Done vars' (Err (newFlagError (String f "") err))
          | (vars', None) => Next (mkState cmd args vars' v)
          end).
Proof.
  intros Hg Hno Hf Hascii Hne Hpre.
  assert (E : short ctx cmd (String "-" (String f value)) args vars
              = match Vars_Set ctx vars g value true with
                | (vars', Some err) => (vars', Err (newFlagError (String f "") err))
                | (vars', None) => (vars', Ok args)
                end).
  { unfold parseShort. cbn [from].
    assert (Hall : ascii_only (String f value) = true).
    { unfold ascii_only, bytes in *. simpl. now rewrite Hf. }
    rewrite (runes_ascii _ Hall).
    destruct value as [|c value]; [congruence|].
    change (bytes (String f (String c value)))
      with (N_of_ascii f :: N_of_ascii c :: bytes value).
    cbn [parseShort_loop]. rewrite (of_rune_byte _ Hf), Hg, Hno.
    rewrite Index_one.
    - cbn [List.length drop].
      change (N_of_ascii c :: bytes value) with (bytes (String c value)).
      now rewrite (of_runes_ascii _ Hascii).
    - simpl in Hpre. intros Hc.
      assert (c = "="%char) as ->; [|discriminate].
      rewrite <- (ascii_N_embedding c), Hc. reflexivity. }
  split; [exact E|].
  intros Hdash v. unfold parse_step.
  assert (Hb : bare (String "-" (String f value)) = false).
  { destruct value; [congruence | reflexivity]. }
  rewrite Hb.
  assert (Ht : String.eqb (String "-" (String f value)) "--" = false).
  { apply String.eqb_neq. intros [= -> _]. congruence. }
  rewrite Ht, bool_decide_eq_false_2 by (simpl; congruence).
  rewrite E. now destruct (Vars_Set ctx vars g value true) as [vars' [err|]].
Qed.

End ParserProps.

Arguments steps {Context Value} Expand Vars_Set toBoolString flagOf ctx _ _.
Arguments steps_refl {Context Value} Expand Vars_Set toBoolString flagOf ctx st.
Arguments toggles {Context Value} Vars_Set toBoolString flagOf ctx cmd _ _ _ _.

(** ** Properties of default population *)

Section PopulateHooks.

Variable Context : Type.
Variable Value : Type.
Variable Expand : Context -> any -> error + string.

(** Two versions of [Vars.Set]. *)
Variable Set1 Set2 :
  Context -> gmap string Value -> Flag.t -> string -> bool -> gmap string Value * option error.

Lemma Populate_loop_skips_hooks ctx all overwrite flags :
  (forall vars g value explicit,
      Flag.Type' g <> HookT ->
      Set1 ctx vars g value explicit = Set2 ctx vars g value explicit) ->
  forall vars,
    Populate_loop Expand Set1 ctx all overwrite flags vars
    = Populate_loop Expand Set2 ctx all overwrite flags vars.
Proof.
  intros Hagree. induction flags as [|g flags IH]; intros vars; [reflexivity|].
  cbn [Populate_loop].
  set (vars0 := if bool_decide (is_Some (vars !! Flag.Name g)) && overwrite
                then delete (Flag.Name g) vars else vars).
  destruct (bool_decide_reflect (Flag.Type' g = HookT)) as [Hhook|Hhook];
    cbn [orb]; [apply IH|].
  destruct (bool_decide (Flag.Def g = None) && negb all); [apply IH|].
  destruct (match Flag.Def g with Some d => Expand ctx d | None => inr "" end)
    as [err|value]; [reflexivity|].
  rewrite (Hagree vars0 g value false Hhook).
  destruct (Set2 ctx vars0 g value false) as [vars' [err|]]; [reflexivity | apply IH].
Qed.

(** C10: what [Populate] does, to the table and as its error, does not depend
    on what [Vars.Set] does for a flag of the hook type, whatever [all] and
    [overwrite] are: it never calls [Vars.Set] for such a flag, so the hook's
    action is not run by default population. *)
Theorem Populate_skips_hooks (cmd : Command.t) (ctx : Context) (all overwrite : bool)
    (vars : gmap string Value) :
  (forall vars g value explicit,
      Flag.Type' g <> HookT ->
      Set1 ctx vars g value explicit = Set2 ctx vars g value explicit) ->
  Command_Populate Expand Set1 cmd ctx all overwrite vars
  = Command_Populate Expand Set2 cmd ctx all overwrite vars.
Proof.
  intros Hagree. unfold Command_Populate.
  destruct (Command.Flags cmd) as [fs|]; [|reflexivity].
  now apply Populate_loop_skips_hooks.
Qed.

End PopulateHooks.

Section PopulateDefaults.

Variable Context : Type.
Variable Data : Type.
Variable Expand : Context -> any -> error + string.
Variable fresh : Context -> Flag.t -> string -> error + Data.
Variable assign : Context -> Flag.t -> option Data -> string -> error + Data.

Local Abbreviation Vars := (gmap string (SetValue Data)).
Local Abbreviation Set_spec := (Vars_Set_spec fresh assign).

(** "no explicit (command-line) assignment has been made" *)
Definition no_explicit (vars : Vars) : Prop :=
  forall k x, vars !! k = Some x -> wasSet x = false.

(** What default population of [flags] with [all] set writes, in order, and
    the error it ends with: neither depends on the table. *)
Fixpoint defaults_of (ctx : Context) (flags : list Flag.t)
    : list (string * SetValue Data) * option error :=
  match flags with
  | [] => ([], None)
  | g :: flags' =>
    if bool_decide (Flag.Type' g = HookT) then defaults_of ctx flags'
    else
      match
        match Flag.Def g with
        | Some d => Expand ctx d
        | None => inr ""
        end
      with
      | inl err => ([], Some err)
      | inr value =>
        match fresh ctx g value with
        | inl err => ([], Some (ErrorfPopulate (Flag.Name g) value err))
        | inr d =>
          let '(writes, e) := defaults_of ctx flags' in
          ((Flag.Name g, mkSetValue d false) :: writes, e)
        end
      end
  end.

Fixpoint write_all (writes : list (string * SetValue Data)) (vars : Vars) : Vars :=
  match writes with
  | [] => vars
  | (k, x) :: writes' => write_all writes' (<[k := x]> vars)
  end.

(** The last value [writes] gives [k]. *)
Fixpoint last_write (writes : list (string * SetValue Data)) (k : string)
    : option (SetValue Data) :=
  match writes with
  | [] => None
  | (k', x) :: writes' =>
    match last_write writes' k with
    | Some y => Some y
    | None => if decide (k' = k) then Some x else None
    end
  end.

Lemma lookup_write_all writes :
  forall vars k,
    write_all writes vars !! k
    = match last_write writes k with
      | Some x => Some x
      | None => vars !! k
      end.
Proof.
  induction writes as [|[k' x] writes IH]; intros vars k; [reflexivity|].
  cbn [write_all last_write]. rewrite IH.
  destruct (last_write writes k); [reflexivity|].
  destruct (decide (k' = k)) as [->|Hne].
  - apply lookup_insert_eq.
  - now apply lookup_insert_ne.
Qed.

Lemma write_all_idempotent writes vars :
  write_all writes (write_all writes vars) = write_all writes vars.
Proof.
  apply map_eq. intros k. rewrite !lookup_write_all.
  now destruct (last_write writes k).
Qed.

Lemma no_explicit_insert vars k d :
  no_explicit vars -> no_explicit (<[k := mkSetValue d false]> vars).
Proof.
  intros H k' x. destruct (decide (k = k')) as [->|Hne].
  - rewrite lookup_insert_eq. now intros [= <-].
  - rewrite lookup_insert_ne by exact Hne. apply H.
Qed.

Lemma Vars_Set_spec_default ctx vars g rawText :
  no_explicit vars ->
  Set_spec ctx vars g rawText false
  = match fresh ctx g rawText with
    | inl err => (vars, Some err)
    | inr d => (<[Flag.Name g := mkSetValue d false]> vars, None)
    end.
Proof.
  intros H. unfold Vars_Set_spec.
  destruct (vars !! Flag.Name g) as [[d [|]]|] eqn:E; try reflexivity.
  apply H in E. discriminate.
Qed.

Lemma Populate_loop_defaults ctx flags :
  forall vars,
    no_explicit vars ->
    Populate_loop Expand Set_spec ctx true false flags vars
    = (write_all (defaults_of ctx flags).1 vars, (defaults_of ctx flags).2)
    /\ no_explicit (write_all (defaults_of ctx flags).1 vars).
Proof.
  induction flags as [|g flags IH]; intros vars Hvars; [now split|].
  cbn [Populate_loop defaults_of negb]. rewrite !andb_false_r, orb_false_r.
  cbv zeta.
  destruct (bool_decide (Flag.Type' g = HookT)); [now apply IH|].
  destruct (match Flag.Def g with Some d => Expand ctx d | None => inr "" end)
    as [err|value]; [now split|].
  rewrite (Vars_Set_spec_default _ _ _ _ Hvars).
  destruct (fresh ctx g value) as [err|d]; [now split|].
  destruct (IH _ (no_explicit_insert vars (Flag.Name g) d Hvars)) as [E Hno].
  rewrite E. destruct (defaults_of ctx flags) as [writes e]. now split.
Qed.

(** C9: on a table into which no explicit assignment has been made,
    [Populate] with [all] set and [overwrite] unset, run a second time on the
    table the first run leaves, leaves that table as it is and ends with the
    same error (with [Vars.Set] as the specification describes it). *)
Theorem Populate_defaults_idempotent (cmd : Command.t) (ctx : Context) (vars : Vars) :
  no_explicit vars ->
  Command_Populate Expand Set_spec cmd ctx true false
    (Command_Populate Expand Set_spec cmd ctx true false vars).1
  = Command_Populate Expand Set_spec cmd ctx true false vars.
Proof.
  intros Hvars. unfold Command_Populate.
  destruct (Command.Flags cmd) as [fs|]; [|reflexivity].
  destruct (Populate_loop_defaults ctx (FlagSet.Flags fs) vars Hvars) as [E Hno].
  rewrite E. cbn [fst].
  destruct (Populate_loop_defaults ctx (FlagSet.Flags fs) _ Hno) as [E' _].
  rewrite E'. now rewrite write_all_idempotent.
Qed.

End PopulateDefaults.

(** ** Properties of command completion *)

Section CompProps.

Variable ToLower : string -> string.
Variable Ldist : list rune -> list rune -> Z.
Variable DefaultMinDist : Z.
Variable Completion : Type.
Variable NewCompletion : string -> string -> Completion.

Local Abbreviation try_conds := (Comp_try NewCompletion).
Local Abbreviation pass := (Comp_pass NewCompletion).
Local Abbreviation CompCommands :=
  (Command_CompCommands ToLower Ldist DefaultMinDist NewCompletion).

(** The completion [addComp] appends for a command. *)
Definition completion_of (c : Command.t) : Completion :=
  NewCompletion (Command.Name c) (Command.Usage c).

(** [m[name]] *)
Definition seen (m : gmap string bool) (name : string) : bool := default false (m !! name).

(** The commands a loop adds: those, in declaration order, that satisfy the
    loop's condition [p] and whose name has not been seen. *)
Fixpoint added (p : Command.t -> bool) (cs : list Command.t) (m : gmap string bool)
    : list Command.t :=
  match cs with
  | [] => []
  | c :: cs' =>
    if seen m (Command.Name c) then added p cs' m
    else if p c then c :: added p cs' (<[Command.Name c := true]> m)
    else added p cs' m
  end.

Fixpoint mark (cs : list Command.t) (m : gmap string bool) : gmap string bool :=
  match cs with
  | [] => m
  | c :: cs' => mark cs' (<[Command.Name c := true]> m)
  end.

Lemma Comp_try_spec comps c m conds :
  try_conds comps c m conds
  = if seen m (Command.Name c) then (comps, m)
    else if existsb id conds
         then (comps ++ [completion_of c], <[Command.Name c := true]> m)
         else (comps, m).
Proof.
  unfold seen. induction conds as [|b conds IH]; cbn [Comp_try existsb].
  - now destruct (default false (m !! Command.Name c)).
  - unfold addComp. destruct (default false (m !! Command.Name c)) eqn:Hseen.
    + reflexivity.
    + destruct b; cbn [id orb]; [reflexivity|].
      exact IH.
Qed.

Lemma Comp_pass_spec conds cs :
  forall comps m,
    pass conds cs comps m
    = (comps ++ map completion_of (added (fun c => existsb id (conds c)) cs m),
       mark (added (fun c => existsb id (conds c)) cs m) m).
Proof.
  induction cs as [|c cs IH]; intros comps m; cbn [Comp_pass added].
  - now rewrite app_nil_r.
  - rewrite Comp_try_spec.
    destruct (seen m (Command.Name c)); [apply IH|].
    destruct (existsb id (conds c)); [|apply IH].
    rewrite IH. cbn [map mark]. now rewrite <- app_assoc.
Qed.

Lemma seen_insert m k k' :
  seen (<[k := true]> m) k' = true <-> k = k' \/ seen m k' = true.
Proof.
  unfold seen. destruct (decide (k = k')) as [->|Hne].
  - rewrite lookup_insert_eq. simpl. tauto.
  - rewrite lookup_insert_ne by exact Hne. tauto.
Qed.

Lemma seen_mark l :
  forall m k, seen (mark l m) k = true <-> seen m k = true \/ k ∈ map Command.Name l.
Proof.
  induction l as [|c l IH]; intros m k; cbn [mark map].
  - rewrite elem_of_nil. tauto.
  - rewrite IH, seen_insert, elem_of_cons. intuition congruence.
Qed.

Lemma added_sublist p cs : forall m, sublist (added p cs m) cs.
Proof.
  induction cs as [|c cs IH]; intros m; cbn [added]; [constructor|].
  destruct (seen m (Command.Name c)); [now constructor|].
  destruct (p c); now constructor.
Qed.

Lemma added_sound p cs :
  forall m, Forall (fun c => p c = true /\ seen m (Command.Name c) = false) (added p cs m).
Proof.
  induction cs as [|c cs IH]; intros m; cbn [added]; [constructor|].
  destruct (seen m (Command.Name c)) eqn:Hseen; [apply IH|].
  destruct (p c) eqn:Hp; [|apply IH].
  constructor; [now split|].
  eapply Forall_impl; [apply IH|]. intros x [Hx Hs]. split; [exact Hx|].
  destruct (seen m (Command.Name x)) eqn:Hsx; [|reflexivity].
  rewrite <- Hs. symmetry. apply seen_insert. now right.
Qed.

Lemma added_NoDup p cs : forall m, NoDup (map Command.Name (added p cs m)).
Proof.
  induction cs as [|c cs IH]; intros m; cbn [added]; [constructor|].
  destruct (seen m (Command.Name c)); [apply IH|].
  destruct (p c); [|apply IH].
  cbn [map]. constructor; [|apply IH].
  intros (x & Hname & Hx)%list_elem_of_fmap.
  pose proof (added_sound p cs (<[Command.Name c := true]> m)) as Hs.
  rewrite Forall_forall in Hs. destruct (Hs x Hx) as [_ Hseen].
  rewrite <- Hname in Hseen.
  assert (seen (<[Command.Name c := true]> m) (Command.Name c) = true)
    by (apply seen_insert; now left).
  congruence.
Qed.

Lemma added_complete p cs :
  forall m c, c ∈ cs -> p c = true ->
    seen (mark (added p cs m) m) (Command.Name c) = true.
Proof.
  induction cs as [|x cs IH]; intros m c Hin Hp; [now apply elem_of_nil in Hin|].
  apply elem_of_cons in Hin. cbn [added].
  destruct (seen m (Command.Name x)) eqn:Hseen.
  - destruct Hin as [->|Hin]; [|now apply IH].
    apply seen_mark. now left.
  - destruct (p x) eqn:Hpx.
    + cbn [mark]. destruct Hin as [->|Hin]; [|now apply IH].
      apply seen_mark. left. apply seen_insert. now left.
    + destruct Hin as [->|Hin]; [congruence | now apply IH].
Qed.

(** The conditions of the three loops, as the specification words them:
    "exact or case insensitive name/alias" match, case-insensitive prefix
    match, edit distance within the threshold. *)
Definition match_exact (name : string) (c : Command.t) : Prop :=
  name = Command.Name c
  \/ name ∈ Command.Aliases c
  \/ ToLower (Command.Name c) = ToLower name
  \/ exists s, s ∈ Command.Aliases c /\ ToLower name = ToLower s.

Definition match_prefix (name : string) (c : Command.t) : Prop :=
  HasPrefix (ToLower (Command.Name c)) (ToLower name) = true
  \/ exists s, s ∈ Command.Aliases c /\ HasPrefix (ToLower s) (ToLower name) = true.

Definition match_dist (t : Z) (name : string) (c : Command.t) : Prop :=
  (Ldist (runes (ToLower (Command.Name c))) (runes (ToLower name)) <= t)%Z
  \/ exists s, s ∈ Command.Aliases c
       /\ (Ldist (runes (ToLower s)) (runes (ToLower name)) <= t)%Z.

Lemma existsb_elem_of {A : Type} (f : A -> bool) (l : list A) :
  existsb f l = true <-> exists x, x ∈ l /\ f x = true.
Proof.
  rewrite existsb_exists. split; intros (x & Hin & Hx); exists x;
    (split; [now apply list_elem_of_In | exact Hx]).
Qed.

Lemma conds_exact_spec name c :
  existsb id (conds_exact ToLower name c) = true <-> match_exact name c.
Proof.
  unfold conds_exact, match_exact. cbn [existsb id].
  rewrite !orb_true_iff, !String.eqb_eq, !existsb_elem_of.
  split.
  - intros [H|[(s & Hin & ->%String.eqb_eq)|[H|[(s & Hin & H%String.eqb_eq)|H]]]];
      eauto 6; discriminate.
  - intros [H|[H|[H|(s & Hin & H)]]]; eauto 8.
    + right. left. exists name. split; [exact H | apply String.eqb_refl].
    + right. right. right. left. exists s. split; [exact Hin | now apply String.eqb_eq].
Qed.

Lemma conds_prefix_spec name c :
  existsb id (conds_prefix ToLower name c) = true <-> match_prefix name c.
Proof.
  unfold conds_prefix, match_prefix. cbn [existsb id].
  rewrite !orb_true_iff, !existsb_elem_of. intuition discriminate.
Qed.

Lemma conds_dist_spec t name c :
  existsb id (conds_dist ToLower Ldist t name c) = true <-> match_dist t name c.
Proof.
  unfold conds_dist, match_dist. cbn [existsb id].
  rewrite !orb_true_iff, !existsb_elem_of, Z.leb_le.
  split.
  - intros [H|[(s & Hin & H%Z.leb_le)|H]]; eauto; discriminate.
  - intros [H|(s & Hin & H)]; eauto. right. left. exists s. split; [exact Hin | now apply Z.leb_le].
Qed.

Lemma added_matches (p : Command.t -> bool) (P : Command.t -> Prop) cs m :
  (forall c, p c = true <-> P c) -> Forall P (added p cs m).
Proof.
  intros HP. eapply Forall_impl; [apply added_sound|]. intros c [Hc _]. now apply HP.
Qed.

Lemma added_fresh p cs m c :
  c ∈ added p cs m -> seen m (Command.Name c) = false.
Proof.
  intros Hin. pose proof (added_sound p cs m) as Hs.
  rewrite Forall_forall in Hs. now destruct (Hs c Hin).
Qed.

(** C8, as amended: the candidates of [CompCommands] come from three loops
    over the sub commands, in this order: exact or case-insensitive
    name/alias match, case-insensitive prefix match, edit distance within
    the threshold.  Each loop adds, in declaration order, the commands that
    meet its condition and whose name no loop has added yet, so no name
    comes twice and the candidates of an earlier loop come before those of a
    later one; every sub command that meets a condition has its name among
    the candidates up to that loop (for the distance, when the threshold is
    not zero). *)
Theorem CompCommands_three_passes (cmd : Command.t) (name : string) :
  exists l1 l2 l3 : list Command.t,
    (CompCommands cmd name).1 = map completion_of (l1 ++ l2 ++ l3)
    /\ NoDup (map Command.Name (l1 ++ l2 ++ l3))
    /\ (sublist l1 (Command.Commands cmd) /\ Forall (match_exact name) l1)
    /\ (sublist l2 (Command.Commands cmd) /\ Forall (match_prefix name) l2)
    /\ (sublist l3 (Command.Commands cmd)
        /\ Forall (match_dist (threshold DefaultMinDist cmd) name) l3)
    /\ (forall c, c ∈ Command.Commands cmd ->
          (match_exact name c -> Command.Name c ∈ map Command.Name l1)
          /\ (match_prefix name c -> Command.Name c ∈ map Command.Name (l1 ++ l2))
          /\ (threshold DefaultMinDist cmd <> 0%Z ->
              match_dist (threshold DefaultMinDist cmd) name c ->
              Command.Name c ∈ map Command.Name (l1 ++ l2 ++ l3))).
Proof.
  set (cs := Command.Commands cmd).
  set (t := threshold DefaultMinDist cmd).
  set (p1 := fun c => existsb id (conds_exact ToLower name c)).
  set (p2 := fun c => existsb id (conds_prefix ToLower name c)).
  set (p3 := fun c => existsb id (conds_dist ToLower Ldist t name c)).
  set (l1 := added p1 cs ∅).
  set (m1 := mark l1 ∅).
  set (l2 := added p2 cs m1).
  set (m2 := mark l2 m1).
  set (l3 := if negb (t =? 0)%Z then added p3 cs m2 else []).
  assert (Hempty : forall k, seen ∅ k = false) by (intros k; unfold seen; now rewrite lookup_empty).
  assert (H12 : forall c, c ∈ l2 -> Command.Name c ∉ map Command.Name l1).
  { intros c Hc Hin. apply added_fresh in Hc.
    assert (seen m1 (Command.Name c) = true) by (apply seen_mark; now right).
    congruence. }
  assert (H3 : forall c, c ∈ l3 -> seen m2 (Command.Name c) = false).
  { intros c Hc. unfold l3 in Hc. destruct (negb (t =? 0)%Z).
    - now apply added_fresh in Hc.
    - now apply elem_of_nil in Hc. }
  exists l1, l2, l3. split; [|split; [|split; [|split; [|split]]]].
  - unfold Command_CompCommands. fold cs.
    rewrite (minDistOf_threshold DefaultMinDist cmd). fold t.
    rewrite (Comp_pass_spec (conds_exact ToLower name) cs [] ∅). fold p1 l1 m1.
    rewrite (Comp_pass_spec (conds_prefix ToLower name) cs _ m1). fold p2 l2 m2.
    unfold l3. destruct (negb (t =? 0)%Z).
    + rewrite (Comp_pass_spec (conds_dist ToLower Ldist t name) cs _ m2). fold p3.
      cbn [fst app]. now rewrite !map_app, app_assoc.
    + cbn [fst app]. now rewrite !map_app, app_nil_r.
  - rewrite !map_app. apply NoDup_app. split; [apply added_NoDup|]. split.
    + intros k Hk1 [Hk2|Hk3]%elem_of_app.
      * apply list_elem_of_fmap in Hk2 as (c & -> & Hc). now apply (H12 c Hc).
      * apply list_elem_of_fmap in Hk3 as (c & -> & Hc). apply H3 in Hc.
        assert (seen m2 (Command.Name c) = true); [|congruence].
        apply seen_mark. left. apply seen_mark. now right.
    + apply NoDup_app. split; [apply added_NoDup|]. split.
      * intros k Hk2 Hk3. apply list_elem_of_fmap in Hk3 as (c & -> & Hc). apply H3 in Hc.
        assert (seen m2 (Command.Name c) = true); [|congruence].
        apply seen_mark. now right.
      * unfold l3. destruct (negb (t =? 0)%Z); [apply added_NoDup | constructor].
  - split; [apply added_sublist | apply added_matches, conds_exact_spec].
  - split; [apply added_sublist | apply added_matches, conds_prefix_spec].
  - unfold l3. destruct (negb (t =? 0)%Z).
    + split; [apply added_sublist | apply added_matches; intros c; apply conds_dist_spec].
    + split; [apply sublist_nil_l | constructor].
  - intros c Hc. split; [|split].
    + intros Hm. apply conds_exact_spec in Hm.
      pose proof (added_complete p1 cs ∅ c Hc Hm) as Hs.
      apply seen_mark in Hs as [Hs|Hs]; [now rewrite Hempty in Hs | exact Hs].
    + intros Hm. apply conds_prefix_spec in Hm.
      pose proof (added_complete p2 cs m1 c Hc Hm) as Hs.
      rewrite map_app, elem_of_app.
      apply seen_mark in Hs as [Hs|Hs]; [left | now right].
      apply seen_mark in Hs as [Hs|Hs]; [now rewrite Hempty in Hs | exact Hs].
    + intros Ht Hm. apply conds_dist_spec in Hm.
      pose proof (added_complete p3 cs m2 c Hc Hm) as Hs.
      rewrite !map_app, !elem_of_app. unfold l3.
      destruct (Z.eqb_spec t 0) as [|_]; [contradiction|]. cbn [negb].
      apply seen_mark in Hs as [Hs|Hs]; [|now right; right].
      apply seen_mark in Hs as [Hs|Hs]; [|now right; left].
      apply seen_mark in Hs as [Hs|Hs]; [now rewrite Hempty in Hs | now left].
Qed.

End CompProps.

Arguments completion_of {Completion} NewCompletion c.

(** ** The claim of four ordered passes *)

Section FourPasses.

Variable ToLower : string -> string.
Variable Ldist : list rune -> list rune -> Z.
Variable DefaultMinDist : Z.
Variable Completion : Type.
Variable NewCompletion : string -> string -> Completion.

(** The first of the four passes of the claim that admits [c]: 1 for an
    exact case-sensitive name/alias match, 2 for an exact case-insensitive
    match, 3 for a case-insensitive prefix match, 4 otherwise (edit
    distance). *)
Definition pass_of (name : string) (c : Command.t) : nat :=
  match conds_exact ToLower name c with
  | [exact_name; exact_alias; fold_name; fold_alias] =>
    if exact_name || exact_alias then 1
    else if fold_name || fold_alias then 2
    else if existsb id (conds_prefix ToLower name c) then 3
    else 4
  | _ => 0
  end.

(** "every candidate contributed by an earlier pass precedes every candidate
    first contributed by a later pass": the candidates are those of a list
    of sub commands along which the pass never goes down. *)
Definition four_passes_in_order (cmd : Command.t) (name : string) : Prop :=
  exists out : list Command.t,
    (forall c, c ∈ out -> c ∈ Command.Commands cmd)
    /\ (Command_CompCommands ToLower Ldist DefaultMinDist NewCompletion cmd name).1
       = map (completion_of NewCompletion) out
    /\ (forall i j ci cj,
          i < j -> out !! i = Some ci -> out !! j = Some cj ->
          pass_of name ci <= pass_of name cj).

End FourPasses.

Arguments four_passes_in_order ToLower Ldist DefaultMinDist {Completion} NewCompletion cmd name.

(** ** The general statements at work on the concrete tool *)

(** The suggestion example of the specification. *)
Example Suggest_pish :
  Tool.Suggest Tool.root ["pish"] = Some (SuggestionError Tool.root "pish" Tool.push).
Proof. vm_compute. reflexivity. Qed.

Example Suggest_zzzzz :
  Tool.Suggest Tool.root ["zzzzz"] = Some (ErrorfSuggestion ErrUnknownCommand "zzzzz" "cmd").
Proof. vm_compute. reflexivity. Qed.

(** The terminator example of the specification. *)
Example Parse_terminator :
  Tool.Parse_ tt Tool.root ["--flag"; "x"; "--"; "-y"; "z"] ∅
  = Some (<["flag" := mkSetValue "x" true]>
            (<["file" := mkSetValue "out.txt" false]>
               (<["all" := mkSetValue "false" false]> ∅)),
          Ok (Tool.root, ["-y"; "z"])).
Proof. vm_compute. reflexivity. Qed.

(** A sub command's name after a positional argument is a positional
    argument. *)
Example Parse_positional_then_name :
  (fun r => match r with Some (_, Ok (c, pos)) => Some (Command.Name c, pos) | _ => None end)
    (Tool.Parse_ tt Tool.root ["a.txt"; "push"]  ∅)
  = Some ("cmd", ["a.txt"; "push"]).
Proof. vm_compute. reflexivity. Qed.

Example Lookup_deepest :
  Command_Lookup Tool.root ["p"; "nothing"; "pull"] = Tool.push.
Proof. reflexivity. Qed.

Definition before_name : state (SetValue string) :=
  mkState Tool.root ["push"; "--verbose"] ∅ ["a.txt"].

Definition after_name : state (SetValue string) :=
  mkState Tool.root ["--verbose"] ∅ ["a.txt"; "push"].

Lemma positional_ends_descent_witness :
  st_cmd after_name = st_cmd before_name
  /\ (exists more, st_v after_name = st_v before_name ++ more)
  /\ (forall s rest,
        st_args after_name = s :: rest -> bare s = true ->
        Tool.step_of tt after_name
        = Next (mkState (st_cmd before_name) rest (st_vars after_name)
                  (st_v after_name ++ [s])))
  /\ (exists vars r,
        parse_from Tool.Expand Tool.Set_ Tool.toBoolString Tool.flagOf tt before_name
        = Some (vars, r)
        /\ match r with
           | Ok (c, pos) =>
             c = st_cmd before_name /\ exists more, pos = st_v before_name ++ more
           | Err _ => True
           end).
Proof.
  apply (positional_ends_descent unit (SetValue string)
           Tool.Expand Tool.Set_ Tool.toBoolString Tool.flagOf tt before_name after_name).
  - discriminate.
  - eapply steps_next; [reflexivity | apply steps_refl].
Defined.

Definition before_flag : state (SetValue string) :=
  mkState Tool.root ["--flag"; "x"; "--"; "-y"; "z"] ∅ [].

Definition at_terminator : state (SetValue string) :=
  mkState Tool.root ["--"; "-y"; "z"] (<["flag" := mkSetValue "x" true]> ∅) [].

Lemma terminator_stops_witness :
  Tool.step_of tt at_terminator
  = Done (st_vars at_terminator) (Ok (Tool.root, ["-y"; "z"]))
  /\ parse_from Tool.Expand Tool.Set_ Tool.toBoolString Tool.flagOf tt before_flag
     = Some (st_vars at_terminator, Ok (Tool.root, ["-y"; "z"])).
Proof.
  apply (terminator_stops unit (SetValue string)
           Tool.Expand Tool.Set_ Tool.toBoolString Tool.flagOf tt
           before_flag at_terminator ["-y"; "z"]).
  - eapply steps_next; [vm_compute; reflexivity | apply steps_refl].
  - reflexivity.
Defined.

(** [--verbose] is given [toBoolString(nil)], not the ["yes"] its [NoArgDef]
    declares. *)
Lemma long_noarg_value_witness :
  Flag.NoArgDef Tool.verbose = Some (AnyString "yes")
  /\ parseLong Tool.Set_ Tool.toBoolString Tool.flagOf tt Tool.root "--verbose" ["x"] ∅
     = (<["verbose" := mkSetValue "true" true]> ∅, Ok ["x"]).
Proof.
  split; [reflexivity|].
  exact (eq_trans
           (long_noarg_value unit (SetValue string) Tool.Set_ Tool.toBoolString Tool.flagOf
              tt Tool.root "verbose" ["x"] ∅ Tool.verbose eq_refl eq_refl eq_refl)
           eq_refl).
Defined.

Definition last_long : state (SetValue string) := mkState Tool.root ["--file"] ∅ [].

Definition last_cluster : state (SetValue string) := mkState Tool.root ["-vaf"] ∅ [].

Lemma missing_argument_witness :
  parse_from Tool.Expand Tool.Set_ Tool.toBoolString Tool.flagOf tt last_long
  = Some (∅, Err (Errorf "--file" ErrMissingArgument))
  /\ parse_from Tool.Expand Tool.Set_ Tool.toBoolString Tool.flagOf tt last_cluster
     = Some (<["all" := mkSetValue "true" true]>
               (<["verbose" := mkSetValue "true" true]> ∅),
             Err (Errorf "-f" ErrMissingArgument)).
Proof.
  split.
  - apply (proj1 (missing_argument unit (SetValue string)
                    Tool.Expand Tool.Set_ Tool.toBoolString Tool.flagOf tt
                    last_long last_long Tool.file (steps_refl _ _ _ _ _ _) eq_refl)
             "file"); [reflexivity | discriminate | reflexivity | reflexivity].
  - apply (proj2 (missing_argument unit (SetValue string)
                    Tool.Expand Tool.Set_ Tool.toBoolString Tool.flagOf tt
                    last_cluster last_cluster Tool.file (steps_refl _ _ _ _ _ _) eq_refl)
             "-vaf" [118; 97]%N 102%N);
      [reflexivity | reflexivity | discriminate | reflexivity | | reflexivity].
    eapply toggles_cons with (g := Tool.verbose); [reflexivity.. |].
    eapply toggles_cons with (g := Tool.all); [reflexivity.. |].
    apply toggles_nil.
Defined.

Lemma embedded_short_value_witness :
  parseShort Tool.Set_ Tool.toBoolString Tool.flagOf tt Tool.root "-fvalue" ["next"] ∅
  = (<["file" := mkSetValue "value" true]> ∅, Ok ["next"])
  /\ Tool.step_of tt (mkState Tool.root ["-fvalue"; "next"] ∅ [])
     = Next (mkState Tool.root ["next"] (<["file" := mkSetValue "value" true]> ∅) []).
Proof.
  destruct (embedded_short_value unit (SetValue string)
              Tool.Expand Tool.Set_ Tool.toBoolString Tool.flagOf tt Tool.root
              "f"%char "value" ["next"] ∅ Tool.file
              eq_refl eq_refl eq_refl eq_refl ltac:(discriminate) eq_refl) as [E1 E2].
  split.
  - exact (eq_trans E1 eq_refl).
  - exact (eq_trans (E2 ltac:(discriminate) []) eq_refl).
Defined.

(** A table that default population has filled before. *)
Definition defaults_before : gmap string (SetValue string) :=
  {["file" := mkSetValue "old.txt" false]}.

Lemma Populate_defaults_idempotent_witness :
  no_explicit string defaults_before
  /\ Tool.Populate Tool.root tt true false
       (Tool.Populate Tool.root tt true false defaults_before).1
     = Tool.Populate Tool.root tt true false defaults_before.
Proof.
  assert (H : no_explicit string defaults_before).
  { unfold defaults_before. intros k x [_ <-]%lookup_singleton_Some. reflexivity. }
  split; [exact H|].
  exact (Populate_defaults_idempotent unit string Tool.Expand
           (fun _ _ s => inr s) (fun _ _ _ s => inr s) Tool.root tt defaults_before H).
Defined.

Lemma Set_no_hook_agrees (ctx : unit) (vars : gmap string (SetValue string)) (g : Flag.t)
    (value : string) (explicit : bool) :
  Flag.Type' g <> HookT ->
  Tool.Set_ ctx vars g value explicit = Tool.Set_no_hook ctx vars g value explicit.
Proof.
  intros Hg. unfold Tool.Set_no_hook. now rewrite bool_decide_eq_false_2 by exact Hg.
Defined.

Lemma Populate_skips_hooks_witness :
  Command_Populate Tool.Expand Tool.Set_ Tool.root tt true true defaults_before
  = Command_Populate Tool.Expand Tool.Set_no_hook Tool.root tt true true defaults_before.
Proof.
  exact (Populate_skips_hooks unit (SetValue string) Tool.Expand Tool.Set_ Tool.Set_no_hook
           Tool.root tt true true defaults_before (Set_no_hook_agrees tt)).
Defined.

(** C8 fails as stated: with the sub commands [Foo] and [foo] and the token
    ["foo"], [Foo], a case-insensitive match only (the claim's second pass),
    comes before [foo], an exact match (the claim's first pass). *)
Lemma CompCommands_exact_not_first :
  (Tool.CompCommands Tool.cased "foo").1 = [("Foo", ""); ("foo", "")]
  /\ ~ four_passes_in_order ToLower_ascii Ldist_spec 2
         (fun name usage : string => (name, usage)) Tool.cased "foo".
Proof.
  split; [vm_compute; reflexivity|].
  intros (out & Hin & Hout & Hord).
  assert (E : (Tool.CompCommands Tool.cased "foo").1 = [("Foo", ""); ("foo", "")])
    by (vm_compute; reflexivity).
  unfold Tool.CompCommands in E. rewrite E in Hout. clear E.
  destruct out as [|a [|b [|c out]]]; try discriminate.
  injection Hout as Ha _ Hb _.
  assert (Ha' : a = Tool.Foo).
  { assert (Hm : a ∈ [Tool.Foo; Tool.foo]) by (apply Hin; left).
    apply elem_of_cons in Hm as [->|Hm]; [reflexivity|].
    apply list_elem_of_singleton in Hm. subst a. discriminate. }
  assert (Hb' : b = Tool.foo).
  { assert (Hm : b ∈ [Tool.Foo; Tool.foo]) by (apply Hin; right; left).
    apply elem_of_cons in Hm as [->|Hm]; [discriminate|].
    now apply list_elem_of_singleton in Hm. }
  subst a b.
  specialize (Hord 0 1 Tool.Foo Tool.foo (Nat.lt_0_succ 0) eq_refl eq_refl).
  vm_compute in Hord. lia.
Qed.

(** * Further properties of the code *)

(** ** The token parser: what becomes of the tokens *)

(** [walk cmd path]: the sub command [path] names from [cmd], every name
    resolving ([Command.Command]) at the node before it. *)
Fixpoint walk (cmd : Command.t) (path : list string) : option Command.t :=
  match path with
  | [] => Some cmd
  | name :: path' =>
    match Command_Command cmd name with
    | Some c => walk c path'
    | None => None
    end
  end.

Lemma walk_app (cmd c : Command.t) (p q : list string) :
  walk cmd p = Some c -> walk cmd (p ++ q) = walk c q.
Proof.
  revert cmd. induction p as [|name p IH]; intros cmd; simpl.
  - now intros [= ->].
  - destruct (Command_Command cmd name) as [c'|]; [apply IH | discriminate].
Qed.

Section ParserTokens.

Variable Context : Type.
Variable Value : Type.
Variable Expand : Context -> any -> error + string.
Variable Vars_Set :
  Context -> gmap string Value -> Flag.t -> string -> bool -> gmap string Value * option error.
Variable toBoolString : option any -> string.
Variable flagOf : Command.t -> string -> option Flag.t.

Local Abbreviation Vars := (gmap string Value).
Local Abbreviation long := (parseLong Vars_Set toBoolString flagOf).
Local Abbreviation short_loop := (parseShort_loop Vars_Set toBoolString flagOf).
Local Abbreviation short := (parseShort Vars_Set toBoolString flagOf).
Local Abbreviation step_of := (parse_step Expand Vars_Set toBoolString flagOf).
Local Abbreviation loop := (parse_loop Expand Vars_Set toBoolString flagOf).
Local Abbreviation run := (parse_from Expand Vars_Set toBoolString flagOf).

Ltac case_set' :=
  match goal with
  | |- context [Vars_Set ?c ?v ?g ?s ?b] =>
    let vars' := fresh "vars'" in
    let e := fresh "e" in
    destruct (Vars_Set c v g s b) as [vars' [e|]]
  end.

Lemma parseLong_rest ctx cmd s args vars vars' args' :
  long ctx cmd s args vars = (vars', Ok args') -> sublist args' args.
Proof.
  unfold parseLong.
  destruct (CutEq (TrimPrefix s "--")) as [[arg value] ok].
  destruct (flagOf cmd arg) as [g|]; [|discriminate].
  destruct ok; [|destruct (Flag.NoArg g); [|destruct args as [|a args0]]];
    try discriminate; case_set'; intros [= <- <-];
    first [reflexivity | apply sublist_cons; reflexivity].
Qed.

Lemma parseShort_loop_rest ctx cmd v args vars vars' args' :
  short_loop ctx cmd v args vars = (vars', Ok args') -> sublist args' args.
Proof.
  revert vars. induction v as [|r v1 IH]; intros vars; cbn [parseShort_loop].
  - now intros [= <- <-].
  - destruct (flagOf cmd (of_rune r)) as [g|]; [|discriminate].
    destruct (Flag.NoArg g).
    + destruct (Index (r :: v1) 61%N =? 1)%Z; case_set'; try discriminate.
      * now intros [= <- <-].
      * apply IH.
    + destruct (List.length v1), args as [|a args0]; try discriminate;
        case_set'; intros [= <- <-];
        first [reflexivity | apply sublist_cons; reflexivity].
Qed.

(** What one iteration keeps: the positionals grow by [kept], the cursor
    moves down by [path], and [path], [kept] and the tokens left are taken
    in order from the tokens there were. *)
Definition keeps (st st' : state Value) (path kept : list string) : Prop :=
  st_v st' = st_v st ++ kept
  /\ walk (st_cmd st) path = Some (st_cmd st')
  /\ sublist (kept ++ st_args st') (st_args st)
  /\ sublist (path ++ st_args st') (st_args st).

Lemma parse_step_keeps ctx st st' :
  step_of ctx st = Next st' -> exists path kept, keeps st st' path kept.
Proof.
  destruct st as [cmd args vars v]. unfold parse_step, keeps. cbn [st_v st_cmd st_args].
  destruct args as [|s args]; [discriminate|].
  destruct (bare s).
  - destruct (if Nat.eqb (List.length v) 0 then Command_Command cmd s else None)
      as [c|] eqn:Hc.
    + destruct (Command_Populate Expand Vars_Set c ctx false false vars) as [vars' [e|]];
        [discriminate|]. intros [= <-]. cbn [st_v st_cmd st_args].
      exists [s], []. repeat split.
      * now rewrite app_nil_r.
      * simpl. destruct (Nat.eqb (List.length v) 0); [|discriminate]. now rewrite Hc.
      * now apply sublist_cons.
      * reflexivity.
    + intros [= <-]. cbn [st_v st_cmd st_args]. exists [], [s]. repeat split.
      * reflexivity.
      * now apply sublist_cons.
  - destruct (String.eqb s "--"); [discriminate|].
    destruct (bool_decide _).
    + destruct (long ctx cmd s args vars) as [vars' [args'|e]] eqn:E; [|discriminate].
      intros [= <-]. cbn [st_v st_cmd st_args]. apply parseLong_rest in E.
      exists [], []. repeat split; [now rewrite app_nil_r | now apply sublist_cons..].
    + destruct (short ctx cmd s args vars) as [vars' [args'|e]] eqn:E; [|discriminate].
      intros [= <-]. cbn [st_v st_cmd st_args]. apply parseShort_loop_rest in E.
      exists [], []. repeat split; [now rewrite app_nil_r | now apply sublist_cons..].
Qed.

Lemma parse_step_done_keeps ctx st vars c pos :
  step_of ctx st = Done vars (Ok (c, pos)) ->
  c = st_cmd st /\ exists kept, pos = st_v st ++ kept /\ sublist kept (st_args st).
Proof.
  destruct st as [cmd args vars0 v]. unfold parse_step. cbn [st_v st_cmd st_args].
  destruct args as [|s args].
  - intros [= <- <- <-]. split; [reflexivity|]. exists []. now rewrite app_nil_r.
  - destruct (bare s).
    + destruct (if Nat.eqb (List.length v) 0 then Command_Command cmd s else None) as [c'|];
        [|discriminate].
      destruct (Command_Populate Expand Vars_Set c' ctx false false vars0) as [vars' [e|]];
        discriminate.
    + destruct (String.eqb s "--").
      * intros [= <- <- <-]. split; [reflexivity|]. exists args.
        split; [reflexivity | now apply sublist_cons].
      * destruct (bool_decide _).
        -- destruct (long ctx cmd s args vars0) as [vars' [args'|e]]; discriminate.
        -- destruct (short ctx cmd s args vars0) as [vars' [args'|e]]; discriminate.
Qed.

Lemma parse_loop_keeps ctx fuel :
  forall st vars c pos,
    loop ctx fuel st = Some (vars, Ok (c, pos)) ->
    exists path kept,
      walk (st_cmd st) path = Some c
      /\ pos = st_v st ++ kept
      /\ sublist kept (st_args st)
      /\ sublist path (st_args st).
Proof.
  induction fuel as [|fuel IH]; intros st vars c pos; [discriminate|].
  cbn [parse_loop].
  destruct (step_of ctx st) as [st'|vars' r] eqn:E.
  - intros Hrun.
    destruct (parse_step_keeps _ _ _ E) as (path1 & kept1 & Hv & Hw & Hk & Hp).
    destruct (IH _ _ _ _ Hrun) as (path2 & kept2 & Hw2 & Hpos & Hk2 & Hp2).
    exists (path1 ++ path2), (kept1 ++ kept2). repeat split.
    + now rewrite (walk_app _ _ _ _ Hw).
    + now rewrite Hpos, Hv, app_assoc.
    + etrans; [|exact Hk]. now apply sublist_app.
    + etrans; [|exact Hp]. now apply sublist_app.
  - intros [= -> ->]. apply parse_step_done_keeps in E as [-> (kept & -> & Hk)].
    exists [], kept. repeat split; [exact Hk | apply sublist_nil_l].
Qed.

(** X1: [parse] returns; when it returns a command, (a) the positional
    arguments it returns are tokens of the argument vector in their order (a
    subsequence of it: the parser makes up no positional and reorders none),
    and (b) the command is the one a subsequence of the tokens names from
    the command [parse] started at, each name resolving as a sub command
    ([Command.Command]) at the node before it. *)
Theorem parse_tokens_in_order ctx (cmd : Command.t) (args : list string) (vars : Vars) :
  exists vars' r,
    parse Expand Vars_Set toBoolString flagOf ctx cmd args vars = Some (vars', r)
    /\ match r with
       | Ok (c, pos) =>
         sublist pos args
         /\ exists path, sublist path args /\ walk cmd path = Some c
       | Err _ => True
       end.
Proof.
  unfold parse.
  destruct (parse_from_total Context Value Expand Vars_Set toBoolString flagOf ctx
              (mkState cmd args vars [])) as (vars' & r & E).
  exists vars', r. split; [exact E|].
  destruct r as [[c pos]|e]; [|exact I].
  apply parse_loop_keeps in E as (path & kept & Hw & -> & Hk & Hp).
  split; [exact Hk | now exists path].
Qed.

Lemma parse_loop_S ctx fuel st :
  loop ctx (S fuel) st
  = match step_of ctx st with
    | Done vars r => Some (vars, r)
    | Next st' => loop ctx fuel st'
    end.
Proof. reflexivity. Qed.

Lemma bare_tokens_after_positional ctx (args : list string) :
  forall cmd vars v,
    v <> [] -> forallb bare args = true ->
    loop ctx (S (List.length args)) (mkState cmd args vars v)
    = Some (vars, Ok (cmd, v ++ args)).
Proof.
  induction args as [|s args IH]; intros cmd vars v Hv Hall.
  - simpl. now rewrite app_nil_r.
  - cbn [forallb] in Hall. apply andb_true_iff in Hall as [Hs Hall].
    cbn [List.length]. rewrite parse_loop_S.
    rewrite (bare_after_positional Context Value Expand Vars_Set toBoolString flagOf
               ctx cmd s args vars v Hv Hs).
    rewrite IH; [|now destruct v|exact Hall].
    now rewrite <- app_assoc.
Qed.

(** X2: on an argument vector of bare tokens only (none is a flag token or
    the terminator), [parse] resolves exactly as [Lookup] does: the command
    it returns is [cmd.Lookup(args...)], reached by the leading tokens, and
    the positional arguments are all the tokens after them; the only error
    it can return is the one of the default population of a sub command it
    descends into. *)
Theorem parse_bare_is_Lookup ctx (cmd : Command.t) (args : list string) (vars : Vars) :
  forallb bare args = true ->
  exists vars' r,
    parse Expand Vars_Set toBoolString flagOf ctx cmd args vars = Some (vars', r)
    /\ match r with
       | Ok (c, pos) =>
         c = Command_Lookup cmd args
         /\ exists path, args = path ++ pos /\ walk cmd path = Some c
       | Err e => exists c err, e = newCommandError (Command.Name c) err
       end.
Proof.
  unfold parse, parse_from. cbn [st_args].
  revert cmd vars. induction args as [|s args IH]; intros cmd vars Hall.
  - exists vars, (Ok (cmd, [])). split; [reflexivity|]. split; [reflexivity|].
    now exists [].
  - cbn [forallb] in Hall. apply andb_true_iff in Hall as [Hs Hall].
    cbn [List.length]. rewrite parse_loop_S. unfold parse_step at 1. rewrite Hs.
    cbn [List.length Nat.eqb Command_Lookup].
    destruct (Command_Command cmd s) as [c|] eqn:Hc.
    + destruct (Command_Populate Expand Vars_Set c ctx false false vars)
        as [vars1 [err|]].
      * exists vars1, (Err (newCommandError (Command.Name c) err)).
        split; [reflexivity|]. now exists c, err.
      * destruct (IH c vars1 Hall) as (vars' & r & E & Hr).
        exists vars', r. split; [exact E|].
        destruct r as [[c' pos]|e]; [|exact Hr].
        destruct Hr as [-> (path & -> & Hw)]. split; [reflexivity|].
        exists (s :: path). split; [reflexivity|]. simpl. now rewrite Hc.
    + cbn [app].
      rewrite (bare_tokens_after_positional ctx args cmd vars [s]); [|discriminate|exact Hall].
      exists vars, (Ok (cmd, [s] ++ args)). split; [reflexivity|].
      split; [reflexivity|]. now exists [].
Qed.

(** ** The token parser: the other forms of a flag *)

Lemma CutEq_at (name value : string) :
  has_eq name = false -> CutEq (name +:+ "=" +:+ value) = (name, value, true).
Proof.
  unfold has_eq. induction name as [|c name IH]; [reflexivity|].
  change (String c name +:+ "=" +:+ value) with (String c (name +:+ "=" +:+ value)).
  cbn [CutEq].
  destruct (Ascii.eqb c "="); [discriminate|].
  destruct (CutEq name) as [[b a] ok] eqn:E. cbn [snd]. intros ->.
  now rewrite (IH eq_refl).
Qed.

(** X3: a long flag token ["--name=value"] commits the text after the first
    ['='] to the flag [name] resolves to, whether or not the flag takes an
    argument, through [Vars.Set] with the explicit mark, and takes no token
    from [args]; the text may be empty (["--name="] assigns the empty
    string) and may hold further ['=']. *)
Theorem long_with_value ctx cmd (name value : string) (args : list string) (vars : Vars) g :
  has_eq name = false ->
  flagOf cmd name = Some g ->
  long ctx cmd ("--" +:+ name +:+ "=" +:+ value) args vars
  = match Vars_Set ctx vars g value true with
    | (vars', Some err) => (vars', Err (newFlagError name err))
    | (vars', None) => (vars', Ok args)
    end.
Proof.
  intros Hname Hg. unfold parseLong.
  change (TrimPrefix ("--" +:+ name +:+ "=" +:+ value) "--") with (name +:+ "=" +:+ value).
  now rewrite (CutEq_at _ _ Hname), Hg.
Qed.

(** X4: a long flag token with no ['='] that resolves to a flag taking an
    argument takes the next token as the value, whatever that token is (a
    flag token or the terminator ["--"] is not looked at), and leaves the
    tokens after it. *)
Theorem long_takes_next ctx cmd (name a : string) (args : list string) (vars : Vars) g :
  has_eq name = false ->
  flagOf cmd name = Some g ->
  Flag.NoArg g = false ->
  long ctx cmd ("--" +:+ name) (a :: args) vars
  = match Vars_Set ctx vars g a true with
    | (vars', Some err) => (vars', Err (newFlagError name err))
    | (vars', None) => (vars', Ok args)
    end.
Proof.
  intros Hname Hg Hno. unfold parseLong.
  change (TrimPrefix ("--" +:+ name) "--") with name.
  now rewrite (CutEq_whole _ Hname), Hg, Hno.
Qed.

(** X5: a flag token that names no flag makes [parse] fail with the
    unknown-flag error naming it.  For a long token the table is left as it
    was; for a cluster, the no-argument flags scanned before the unknown
    rune have been assigned and stay assigned in the table [parse] leaves. *)
Theorem unknown_flag ctx (st0 st : state Value) :
  steps Expand Vars_Set toBoolString flagOf ctx st0 st ->
  (forall name rest,
      st_args st = ("--" +:+ name) :: rest ->
      name <> "" ->
      flagOf (st_cmd st) (CutEq name).1.1 = None ->
      run ctx st0
      = Some (st_vars st, Err (newFlagError (CutEq name).1.1 ErrUnknownFlag)))
  /\ (forall s rest pre r tail vars',
        st_args st = s :: rest ->
        bare s = false ->
        String.get 1 s <> Some "-"%char ->
        runes (from 1 s) = pre ++ r :: tail ->
        toggles Vars_Set toBoolString flagOf ctx (st_cmd st) pre (r :: tail) (st_vars st) vars' ->
        flagOf (st_cmd st) (of_rune r) = None ->
        run ctx st0 = Some (vars', Err (newFlagError (of_rune r) ErrUnknownFlag))).
Proof.
  intros Hsteps.
  rewrite (parse_from_steps Context Value Expand Vars_Set toBoolString flagOf _ _ _ Hsteps).
  destruct st as [cmd args vars v]. cbn [st_args st_cmd st_vars]. split.
  - intros name rest -> Hname Hg.
    apply (parse_from_done Context Value Expand Vars_Set toBoolString flagOf).
    destruct (long_token name Hname) as (Hb & Ht & Hl).
    unfold parse_step. rewrite Hb, Ht, Hl. unfold parseLong.
    change (TrimPrefix ("--" +:+ name) "--") with name.
    destruct (CutEq name) as [[arg value] ok]. cbn [fst] in *. now rewrite Hg.
  - intros s rest pre r tail vars' -> Hb Hl Hrunes Htog Hg.
    apply (parse_from_done Context Value Expand Vars_Set toBoolString flagOf).
    unfold parse_step. rewrite Hb.
    destruct (String.eqb_spec s "--") as [->|_]; [now contradiction Hl|].
    rewrite bool_decide_eq_false_2 by exact Hl.
    unfold parseShort.
    rewrite Hrunes,
      (short_loop_toggles Context Value Vars_Set toBoolString flagOf _ _ _ _ _ _ _ Htog).
    cbn [parseShort_loop]. now rewrite Hg.
Qed.

(** X6: the error of a flag is decorated by the number of runes of the
    flag's name, not by the form of the token: an unknown long flag of one
    rune, typed ["--n"], is reported as ["-n"]. *)
Theorem long_flag_of_one_rune_reported_short ctx cmd (name : string) (rest : list string)
    (vars : Vars) (v : list string) :
  RuneCountInString name = 1 ->
  has_eq name = false ->
  flagOf cmd name = None ->
  step_of ctx (mkState cmd (("--" +:+ name) :: rest) vars v)
  = Done vars (Err (Errorf ("-" +:+ name) ErrUnknownFlag)).
Proof.
  intros Hcount Heq Hg.
  assert (Hname : name <> "") by (intros ->; discriminate).
  destruct (long_token name Hname) as (Hb & Ht & Hl).
  unfold parse_step. rewrite Hb, Ht, Hl. unfold parseLong.
  change (TrimPrefix ("--" +:+ name) "--") with name.
  rewrite (CutEq_whole _ Heq), Hg. unfold newFlagError. now rewrite Hcount.
Qed.

(** X7: a cluster all of whose runes resolve to no-argument flags (none
    followed by ['=']) assigns each of them [toBoolString(g.Def)], in the
    order of the cluster, and takes no token from [args]. *)
Theorem cluster_of_toggles ctx cmd (s : string) (args : list string) (vars vars' : Vars) :
  toggles Vars_Set toBoolString flagOf ctx cmd (runes (from 1 s)) [] vars vars' ->
  short ctx cmd s args vars = (vars', Ok args).
Proof.
  intros Htog. unfold parseShort.
  rewrite <- (app_nil_r (runes (from 1 s))).
  now rewrite (short_loop_toggles Context Value Vars_Set toBoolString flagOf _ _ _ _ _ _ _ Htog).
Qed.

Lemma Index_at_one (x r : rune) (v : list rune) :
  x <> r -> (Index (x :: r :: v) r =? 1)%Z = true.
Proof.
  intros Hx. unfold Index; fold Index.
  destruct (N.eqb_spec x r) as [|_]; [contradiction|].
  now rewrite N.eqb_refl.
Qed.

(** X8: a short flag token ["-f=value"] commits [value], without the ['='],
    to the flag [f] resolves to, whether or not the flag takes an argument,
    and takes no token from [args]; for a no-argument flag too the scan of
    the cluster ends there ([value] is not read as flags). *)
Theorem short_with_value ctx cmd (f : ascii) (value : string) (args : list string)
    (vars : Vars) (g : Flag.t) :
  (N_of_ascii f <? 0x80)%N = true ->
  f <> "="%char ->
  ascii_only value = true ->
  flagOf cmd (String f "") = Some g ->
  short ctx cmd (String "-" (String f (String "=" value))) args vars
  = match Vars_Set ctx vars g value true with
    | (vars', Some err) => (vars', Err (newFlagError (String f "") err))
    | (vars', None) => (vars', Ok args)
    end.
Proof.
  intros Hf Hne Hascii Hg. unfold parseShort. cbn [from].
  assert (Hall : ascii_only (String f (String "=" value)) = true).
  { unfold ascii_only, bytes in *. simpl. now rewrite Hf. }
  rewrite (runes_ascii _ Hall).
  change (bytes (String f (String "=" value))) with (N_of_ascii f :: 61%N :: bytes value).
  cbn [parseShort_loop]. rewrite (of_rune_byte _ Hf), Hg.
  rewrite Index_at_one.
  - cbn [List.length drop]. rewrite drop_0, (of_runes_ascii _ Hascii).
    now destruct (Flag.NoArg g).
  - intros Hc. apply Hne. rewrite <- (ascii_N_embedding f), Hc. reflexivity.
Qed.

(** X9: when the scan of a cluster reaches, as its last rune, a flag that
    takes an argument, and a token follows the cluster, that token is the
    value, whatever it is, and the tokens after it are left. *)
Theorem short_takes_next ctx cmd (pre : list rune) (r : rune) (a : string)
    (args : list string) (vars vars' : Vars) (g : Flag.t) :
  toggles Vars_Set toBoolString flagOf ctx cmd pre [r] vars vars' ->
  flagOf cmd (of_rune r) = Some g ->
  Flag.NoArg g = false ->
  short_loop ctx cmd (pre ++ [r]) (a :: args) vars
  = match Vars_Set ctx vars' g a true with
    | (vars'', Some err) => (vars'', Err (newFlagError (of_rune r) err))
    | (vars'', None) => (vars'', Ok args)
    end.
Proof.
  intros Htog Hg Hno.
  rewrite (short_loop_toggles Context Value Vars_Set toBoolString flagOf _ _ _ _ _ _ _ Htog).
  cbn [parseShort_loop List.length]. now rewrite Hg, Hno.
Qed.

End ParserTokens.

Arguments keeps {Value} st st' path kept.

Lemma parse_bare_is_Lookup_witness :
  exists vars' r,
    parse Tool.Expand Tool.Set_ Tool.toBoolString Tool.flagOf tt Tool.root
      ["push"; "a.txt"; "pull"] ∅ = Some (vars', r)
    /\ match r with
       | Ok (c, pos) =>
         c = Command_Lookup Tool.root ["push"; "a.txt"; "pull"]
         /\ exists path, ["push"; "a.txt"; "pull"] = path ++ pos /\ walk Tool.root path = Some c
       | Err e => exists c err, e = newCommandError (Command.Name c) err
       end.
Proof.
  exact (parse_bare_is_Lookup unit (SetValue string) Tool.Expand Tool.Set_
           Tool.toBoolString Tool.flagOf tt Tool.root ["push"; "a.txt"; "pull"] ∅ eq_refl).
Defined.

Lemma long_with_value_witness :
  parseLong Tool.Set_ Tool.toBoolString Tool.flagOf tt Tool.root "--file=" ["x"] ∅
  = (<["file" := mkSetValue "" true]> ∅, Ok ["x"])
  /\ parseLong Tool.Set_ Tool.toBoolString Tool.flagOf tt Tool.root "--verbose=a=b" ["x"] ∅
     = (<["verbose" := mkSetValue "a=b" true]> ∅, Ok ["x"]).
Proof.
  split.
  - exact (eq_trans
             (long_with_value unit (SetValue string) Tool.Set_ Tool.toBoolString Tool.flagOf
                tt Tool.root "file" "" ["x"] ∅ Tool.file eq_refl eq_refl) eq_refl).
  - exact (eq_trans
             (long_with_value unit (SetValue string) Tool.Set_ Tool.toBoolString Tool.flagOf
                tt Tool.root "verbose" "a=b" ["x"] ∅ Tool.verbose eq_refl eq_refl) eq_refl).
Defined.

Lemma long_takes_next_witness :
  parseLong Tool.Set_ Tool.toBoolString Tool.flagOf tt Tool.root "--file" ["--"; "z"] ∅
  = (<["file" := mkSetValue "--" true]> ∅, Ok ["z"]).
Proof.
  exact (eq_trans
           (long_takes_next unit (SetValue string) Tool.Set_ Tool.toBoolString Tool.flagOf
              tt Tool.root "file" "--" ["z"] ∅ Tool.file eq_refl eq_refl eq_refl) eq_refl).
Defined.

Definition at_unknown_long : state (SetValue string) := mkState Tool.root ["--nope=1"; "x"] ∅ [].

Definition at_unknown_short : state (SetValue string) := mkState Tool.root ["-vx"; "x"] ∅ [].

Lemma unknown_flag_witness :
  parse_from Tool.Expand Tool.Set_ Tool.toBoolString Tool.flagOf tt at_unknown_long
  = Some (∅, Err (Errorf "--nope" ErrUnknownFlag))
  /\ parse_from Tool.Expand Tool.Set_ Tool.toBoolString Tool.flagOf tt at_unknown_short
     = Some (<["verbose" := mkSetValue "true" true]> ∅, Err (Errorf "-x" ErrUnknownFlag)).
Proof.
  split.
  - apply (proj1 (unknown_flag unit (SetValue string)
                    Tool.Expand Tool.Set_ Tool.toBoolString Tool.flagOf tt
                    at_unknown_long at_unknown_long (steps_refl _ _ _ _ _ _))
             "nope=1" ["x"]); [reflexivity | discriminate | reflexivity].
  - apply (proj2 (unknown_flag unit (SetValue string)
                    Tool.Expand Tool.Set_ Tool.toBoolString Tool.flagOf tt
                    at_unknown_short at_unknown_short (steps_refl _ _ _ _ _ _))
             "-vx" ["x"] [118%N] 120%N []);
      [reflexivity | reflexivity | discriminate | reflexivity | | reflexivity].
    eapply toggles_cons with (g := Tool.verbose); [reflexivity.. |].
    apply toggles_nil.
Defined.

Lemma long_flag_of_one_rune_reported_short_witness :
  Tool.step_of tt (mkState Tool.root ["--n"; "x"] ∅ [])
  = Done ∅ (Err (Errorf "-n" ErrUnknownFlag)).
Proof.
  exact (long_flag_of_one_rune_reported_short unit (SetValue string)
           Tool.Expand Tool.Set_ Tool.toBoolString Tool.flagOf tt Tool.root "n" ["x"] ∅ []
           eq_refl eq_refl eq_refl).
Defined.

Lemma cluster_of_toggles_witness :
  parseShort Tool.Set_ Tool.toBoolString Tool.flagOf tt Tool.root "-va" ["x"] ∅
  = (<["all" := mkSetValue "true" true]> (<["verbose" := mkSetValue "true" true]> ∅),
     Ok ["x"]).
Proof.
  apply (cluster_of_toggles unit (SetValue string) Tool.Set_ Tool.toBoolString Tool.flagOf
           tt Tool.root "-va" ["x"]).
  eapply toggles_cons with (g := Tool.verbose); [reflexivity.. |].
  eapply toggles_cons with (g := Tool.all); [reflexivity.. |].
  apply toggles_nil.
Defined.

Lemma short_with_value_witness :
  parseShort Tool.Set_ Tool.toBoolString Tool.flagOf tt Tool.root "-f=out" ["x"] ∅
  = (<["file" := mkSetValue "out" true]> ∅, Ok ["x"])
  /\ parseShort Tool.Set_ Tool.toBoolString Tool.flagOf tt Tool.root "-v=af" ["x"] ∅
     = (<["verbose" := mkSetValue "af" true]> ∅, Ok ["x"]).
Proof.
  split.
  - exact (eq_trans
             (short_with_value unit (SetValue string) Tool.Set_ Tool.toBoolString Tool.flagOf
                tt Tool.root "f"%char "out" ["x"] ∅ Tool.file
                eq_refl ltac:(discriminate) eq_refl eq_refl) eq_refl).
  - exact (eq_trans
             (short_with_value unit (SetValue string) Tool.Set_ Tool.toBoolString Tool.flagOf
                tt Tool.root "v"%char "af" ["x"] ∅ Tool.verbose
                eq_refl ltac:(discriminate) eq_refl eq_refl) eq_refl).
Defined.

Lemma short_takes_next_witness :
  parseShort_loop Tool.Set_ Tool.toBoolString Tool.flagOf tt Tool.root
    [118%N; 102%N] ["--"; "z"] ∅
  = (<["file" := mkSetValue "--" true]> (<["verbose" := mkSetValue "true" true]> ∅),
     Ok ["z"]).
Proof.
  refine (eq_trans
            (short_takes_next unit (SetValue string) Tool.Set_ Tool.toBoolString Tool.flagOf
               tt Tool.root [118%N] 102%N "--" ["z"] ∅
               (<["verbose" := mkSetValue "true" true]> ∅) Tool.file _ eq_refl eq_refl)
            eq_refl).
  eapply toggles_cons with (g := Tool.verbose); [reflexivity.. |].
  apply toggles_nil.
Defined.

(** ** The command tree: lookups along the parent chain *)

(** [Command.CommandSpecial] *)
Definition Command_CommandSpecial (cmd : Command.t) (special : string) : option Command.t :=
  List.find (fun c => String.eqb (Command.Special c) special) (Command.Commands cmd).

(** [Command.FlagSpecial] *)
Definition Command_FlagSpecial (cmd : Command.t) (special : string) : option Flag.t :=
  match Command.Flags cmd with
  | Some fs =>
    if negb (Nat.eqb (List.length (FlagSet.Flags fs)) 0)
    then List.find (fun g => String.eqb (Flag.Special g) special) (FlagSet.Flags fs)
    else None
  | None => None
  end.

(** The loop of [Command.Tree]: the names from the command up to the root,
    before [slices.Reverse]. *)
Fixpoint Tree_up (c : Command.t) : list string :=
  Command.Name c ::
  match Command.Parent c with
  | Some p => Tree_up p
  | None => []
  end.

(** [Command.Tree], as written: the loop, then the reversal. *)
Definition Tree_of (cmd : Command.t) : list string := rev (Tree_up cmd).

(** [Command.Path]: [cmd.Tree()[1:]]; [None] is the slice out of range. *)
Definition Command_Path (cmd : Command.t) : option (list string) :=
  match Tree_of cmd with
  | [] => None
  | _ :: path => Some path
  end.

(** [Command.RootName]: [cmd.Tree()[0]]; [None] is the index out of range. *)
Definition Command_RootName (cmd : Command.t) : option string :=
  match Tree_of cmd with
  | [] => None
  | name :: _ => Some name
  end.

(** The command and its ancestors, nearest first. *)
Fixpoint lineage (cmd : Command.t) : list Command.t :=
  cmd ::
  match Command.Parent cmd with
  | Some p => lineage p
  | None => []
  end.

(** The flags a command declares itself. *)
Definition own_flags (cmd : Command.t) : list Flag.t :=
  match Command.Flags cmd with
  | Some fs => FlagSet.Flags fs
  | None => []
  end.

(** The number of ancestors. *)
Fixpoint depth (cmd : Command.t) : nat :=
  match Command.Parent cmd with
  | Some p => S (depth p)
  | None => O
  end.

(** Induction along the parent chain. *)
Lemma parent_chain_ind (P : Command.t -> Prop) :
  (forall c, Command.Parent c = None -> P c) ->
  (forall c p, Command.Parent c = Some p -> P p -> P c) ->
  forall c, P c.
Proof.
  intros Hroot Hsub c. remember (depth c) as n eqn:Hn. revert c Hn.
  induction n as [|n IH]; intros c Hn.
  - apply Hroot. destruct c as [[p|] ?]; [discriminate | reflexivity].
  - destruct c as [[p|] name usage al sug fl cs help comp sec hid dep spc]; [|discriminate].
    eapply Hsub; [reflexivity|]. apply IH. simpl in Hn. now injection Hn.
Qed.

Lemma lineage_unfold (cmd : Command.t) :
  lineage cmd = cmd :: match Command.Parent cmd with Some p => lineage p | None => [] end.
Proof. now destruct cmd. Qed.

Lemma Command_Flag_unfold (cmd : Command.t) name parents short :
  Command_Flag cmd name parents short
  = match List.find (Flag_matches name short) (own_flags cmd) with
    | Some g => Some g
    | None =>
      if parents
      then match Command.Parent cmd with
           | Some p => Command_Flag p name parents short
           | None => None
           end
      else None
    end.
Proof. destruct cmd as [? ? ? ? ? [fs|]]; reflexivity. Qed.

Lemma find_app {A : Type} (p : A -> bool) (l1 l2 : list A) :
  List.find p (l1 ++ l2)
  = match List.find p l1 with Some x => Some x | None => List.find p l2 end.
Proof.
  induction l1 as [|x l1 IH]; [reflexivity|]. simpl. now destruct (p x).
Qed.

Lemma Flag_nearest_first_eq (cmd : Command.t) (name : string) (parents short : bool) :
  Command_Flag cmd name parents short
  = List.find (Flag_matches name short)
      (if parents then flat_map own_flags (lineage cmd) else own_flags cmd).
Proof.
  destruct parents.
  - induction cmd as [c Hroot | c p Hp IH] using parent_chain_ind.
    + rewrite Command_Flag_unfold, lineage_unfold, Hroot. cbn [flat_map].
      rewrite app_nil_r. now destruct (List.find _ (own_flags c)).
    + rewrite Command_Flag_unfold, lineage_unfold, Hp. cbn [flat_map].
      now rewrite find_app, IH.
  - rewrite Command_Flag_unfold. now destruct (List.find _ (own_flags cmd)).
Qed.

(** X10: [Command.Flag] returns the nearest declaration: with [parents] set,
    the first flag matching the name on the chosen axis among the command's
    own flags followed by its parent's, then its grandparent's, up to the
    root (so a sub command's flag shadows an ancestor's of the same name);
    with [parents] unset, the first among the command's own flags only.  It
    returns nil exactly when no flag in that scope matches. *)
Theorem Flag_nearest_first (cmd : Command.t) (name : string) (parents short : bool) :
  let scope := if parents then flat_map own_flags (lineage cmd) else own_flags cmd in
  (forall g,
      Command_Flag cmd name parents short = Some g
      <-> first_match (fun x => Flag_matches name short x = true) scope g)
  /\ (Command_Flag cmd name parents short = None
      <-> Forall (fun x => Flag_matches name short x <> true) scope).
Proof.
  cbv zeta. rewrite Flag_nearest_first_eq. split.
  - intros g. apply find_first_match.
  - apply find_none.
Qed.

Lemma Flag_matches_axis (name : string) (short : bool) (g : Flag.t) :
  Flag_matches name short g = true ->
  if short
  then name = Flag.Short g \/ (name ∈ Flag.Aliases g /\ String.length name = 1)
  else name = Flag.Name g \/ (name ∈ Flag.Aliases g /\ String.length name <> 1).
Proof.
  unfold Flag_matches. rewrite !orb_true_iff, !andb_true_iff, existsb_exists.
  intros [[[Hn Hs]|[Hn Hs]]|(s & Hin & [Hn Hs]%andb_true_iff)].
  - apply String.eqb_eq in Hn. destruct short; [discriminate | now left].
  - apply String.eqb_eq in Hn. destruct short; [now left | discriminate].
  - apply String.eqb_eq in Hn. subst s. apply list_elem_of_In in Hin.
    destruct short, (Nat.eqb_spec (String.length name) 1); try discriminate;
      right; now split.
Qed.

(** X11: the flag [Command.Flag] returns is declared by the command or, with
    [parents] set, by one of its ancestors, and matches on the axis asked
    for only: with [short] set, its short name or an alias of one byte is
    the name; with [short] unset, its long name or an alias of another
    length is.  So a long name is never found by a short lookup, nor a
    short name by a long one. *)
Theorem Flag_found_on_axis (cmd : Command.t) (name : string) (parents short : bool)
    (g : Flag.t) :
  Command_Flag cmd name parents short = Some g ->
  (exists c, c ∈ lineage cmd /\ (parents = false -> c = cmd) /\ g ∈ own_flags c)
  /\ (if short
      then name = Flag.Short g \/ (name ∈ Flag.Aliases g /\ String.length name = 1)
      else name = Flag.Name g \/ (name ∈ Flag.Aliases g /\ String.length name <> 1)).
Proof.
  rewrite Flag_nearest_first_eq. intros Hfind.
  apply find_some in Hfind as [Hin Hm]. split; [|now apply Flag_matches_axis].
  destruct parents.
  - apply in_flat_map in Hin as (c & Hc & Hg). exists c.
    split; [now apply list_elem_of_In|]. split; [discriminate | now apply list_elem_of_In].
  - exists cmd. split; [rewrite lineage_unfold; left|].
    split; [reflexivity | now apply list_elem_of_In].
Qed.

Lemma Flag_found_on_axis_witness :
  (exists c, c ∈ lineage Tool.push /\ (true = false -> c = Tool.push)
             /\ Tool.file ∈ own_flags c)
  /\ ("f" = Flag.Short Tool.file
      \/ ("f" ∈ Flag.Aliases Tool.file /\ String.length "f" = 1)).
Proof.
  exact (Flag_found_on_axis Tool.push "f" true true Tool.file eq_refl).
Defined.

Lemma Tree_up_lineage (cmd : Command.t) : Tree_up cmd = map Command.Name (lineage cmd).
Proof.
  induction cmd as [c Hroot | c p Hp IH] using parent_chain_ind.
  - destruct c as [[q|] ?]; [discriminate | reflexivity].
  - destruct c as [[q|] ?]; [|discriminate]. injection Hp as ->. simpl. now rewrite <- IH.
Qed.

Lemma Tree_of_sub (cmd p : Command.t) :
  Command.Parent cmd = Some p -> Tree_of cmd = Tree_of p ++ [Command.Name cmd].
Proof.
  intros Hp. unfold Tree_of. destruct cmd as [[q|] ?]; [|discriminate].
  injection Hp as ->. reflexivity.
Qed.

Lemma Tree_of_root (cmd : Command.t) :
  Command.Parent cmd = None -> Tree_of cmd = [Command.Name cmd].
Proof. intros Hp. unfold Tree_of. destruct cmd as [[q|] ?]; [discriminate | reflexivity]. Qed.

(** The topmost ancestor. *)
Fixpoint root_of (cmd : Command.t) : Command.t :=
  match Command.Parent cmd with
  | Some p => root_of p
  | None => cmd
  end.

Lemma root_of_sub (cmd p : Command.t) :
  Command.Parent cmd = Some p -> root_of cmd = root_of p /\ depth cmd = S (depth p).
Proof. intros Hp. destruct cmd as [[q|] ?]; [|discriminate]. now injection Hp as ->. Qed.

Lemma root_of_root (cmd : Command.t) :
  Command.Parent cmd = None -> root_of cmd = cmd /\ depth cmd = 0.
Proof. intros Hp. now destruct cmd as [[q|] ?]. Qed.

Lemma Tree_of_shape (cmd : Command.t) :
  exists path,
    Tree_of cmd = Command.Name (root_of cmd) :: path
    /\ Command.Parent (root_of cmd) = None
    /\ List.length path = depth cmd.
Proof.
  induction cmd as [c Hroot | c p Hp IH] using parent_chain_ind.
  - destruct (root_of_root _ Hroot) as [-> ->].
    exists []. now rewrite (Tree_of_root _ Hroot).
  - destruct IH as (path & Ht & Hr & Hlen).
    destruct (root_of_sub _ _ Hp) as [-> ->].
    exists (path ++ [Command.Name c]).
    rewrite (Tree_of_sub _ _ Hp), Ht. repeat split; [exact Hr|].
    rewrite length_app, Hlen. simpl. lia.
Qed.

(** X12: [Command.Tree] is never empty, so [Path] ([Tree()[1:]]) and
    [RootName] ([Tree()[0]]) never go out of range: [RootName] is the name
    of the topmost ancestor, [Path] holds one name per ancestor, the tree is
    the root name followed by the path, and its names are those of the
    parent chain from the root down.  For a sub command, [RootName] is its
    parent's and [Path] is its parent's followed by its own name. *)
Theorem Tree_Path_RootName (cmd : Command.t) :
  Tree_of cmd = map Command.Name (rev (lineage cmd))
  /\ (exists path,
        Command_RootName cmd = Some (Command.Name (root_of cmd))
        /\ Command_Path cmd = Some path
        /\ Tree_of cmd = Command.Name (root_of cmd) :: path
        /\ Command.Parent (root_of cmd) = None
        /\ List.length path = depth cmd)
  /\ (forall p,
        Command.Parent cmd = Some p ->
        Command_RootName cmd = Command_RootName p
        /\ Command_Path cmd = (fun path => path ++ [Command.Name cmd]) <$> Command_Path p).
Proof.
  split; [|split].
  - unfold Tree_of. now rewrite Tree_up_lineage, map_rev.
  - destruct (Tree_of_shape cmd) as (path & Ht & Hr & Hlen).
    exists path. unfold Command_RootName, Command_Path. rewrite Ht. now repeat split.
  - intros p Hp. destruct (Tree_of_shape p) as (path & Ht & _).
    unfold Command_RootName, Command_Path. rewrite (Tree_of_sub _ _ Hp), Ht. now split.
Qed.

(** X13: [CommandSpecial] returns the first sub command, in declaration
    order, whose special value is the one asked for, and [FlagSpecial] the
    first such flag of the command's own flag set; each returns nil exactly
    when none has that value (also for a command with no flag set). *)
Theorem Special_first_match (cmd : Command.t) (special : string) :
  (forall c,
      Command_CommandSpecial cmd special = Some c
      <-> first_match (fun x => Command.Special x = special) (Command.Commands cmd) c)
  /\ (Command_CommandSpecial cmd special = None
      <-> Forall (fun x => Command.Special x <> special) (Command.Commands cmd))
  /\ (forall g,
        Command_FlagSpecial cmd special = Some g
        <-> first_match (fun x => Flag.Special x = special) (own_flags cmd) g)
  /\ (Command_FlagSpecial cmd special = None
      <-> Forall (fun x => Flag.Special x <> special) (own_flags cmd)).
Proof.
  assert (Hflags : Command_FlagSpecial cmd special
                   = List.find (fun g => String.eqb (Flag.Special g) special) (own_flags cmd)).
  { unfold Command_FlagSpecial, own_flags.
    destruct (Command.Flags cmd) as [[[|g fl]]|]; reflexivity. }
  rewrite Hflags. unfold Command_CommandSpecial.
  split; [|split; [|split]].
  - intros c. rewrite find_first_match.
    split; apply first_match_iff; intros x; now rewrite String.eqb_eq.
  - rewrite find_none.
    split; intros H; (eapply Forall_impl; [exact H|]); intros x Hx Hs;
      apply Hx; now apply String.eqb_eq.
  - intros g. rewrite find_first_match.
    split; apply first_match_iff; intros x; now rewrite String.eqb_eq.
  - rewrite find_none.
    split; intros H; (eapply Forall_impl; [exact H|]); intros x Hx Hs;
      apply Hx; now apply String.eqb_eq.
Qed.

Lemma walk_Lookup (cmd d : Command.t) (p : list string) :
  walk cmd p = Some d -> Command_Lookup cmd p = d.
Proof.
  revert cmd. induction p as [|name p IH]; intros cmd; simpl.
  - now intros [= ->].
  - destruct (Command_Command cmd name) as [c|]; [apply IH | discriminate].
Qed.

(** X14: lookups compose: when every name of [p] resolves from [cmd],
    looking [p ++ q] up from [cmd] is looking [q] up from the command [p]
    leads to; and when some name of [p] does not resolve, what follows [p]
    is never looked at. *)
Theorem Lookup_app (cmd : Command.t) (p q : list string) :
  match walk cmd p with
  | Some d => Command_Lookup cmd (p ++ q) = Command_Lookup d q
  | None => Command_Lookup cmd (p ++ q) = Command_Lookup cmd p
  end.
Proof.
  revert cmd. induction p as [|name p IH]; intros cmd; [reflexivity|].
  cbn [walk app Command_Lookup].
  destruct (Command_Command cmd name) as [c|]; [apply IH | reflexivity].
Qed.

Lemma Command_Tree_is_Tree_of (cmd : Command.t) : Command_Tree cmd = Tree_of cmd.
Proof.
  induction cmd as [c Hroot | c p Hp IH] using parent_chain_ind.
  - rewrite (Tree_of_root _ Hroot). now destruct c as [[q|] ?].
  - rewrite (Tree_of_sub _ _ Hp), <- IH. destruct c as [[q|] ?]; [|discriminate].
    now injection Hp as ->.
Qed.

(** ** [split]: cutting a tag at unescaped runes *)

Module Split.

Local Open Scope N_scope.

(** The backslash. *)
Definition backslash : rune := 92.

(** [peek] *)
Definition peek (r : list rune) (i n : nat) : rune :=
  if (i <? n)%nat then nth i r 0 else 0.

(** The loop of [split] over [r], the runes from index [i] on; [v] holds the
    pieces before [v[j]] and [cur] is [v[j]]. *)
Fixpoint loop (cut : rune) (r : list rune) (v : list (list rune)) (cur : list rune)
    : list (list rune) :=
  match r with
  | [] => v ++ [cur]
  | c :: r1 =>
    let next := peek r 1 (List.length r) in
    if (c =? backslash) && negb (next =? 0) then
      (* i, c = i+1, next: the rune after the backslash is taken as it is *)
      match r1 with
      | _ :: r2 => loop cut r2 v (cur ++ [next])
      | [] => v ++ [cur ++ [next]]
      end
    else if c =? cut then loop cut r1 (v ++ [cur]) []
    else loop cut r1 v (cur ++ [c])
  end.

(** The pieces of [split], as runes. *)
Definition pieces (r : list rune) (cut : rune) : list (list rune) := loop cut r [] [].

(** [split] *)
Definition split (str : string) (cut : rune) : list string :=
  map of_runes (pieces (runes str) cut).

(** The pieces put together again, [cut] between them. *)
Fixpoint join (cut : rune) (ps : list (list rune)) : list rune :=
  match ps with
  | [] => []
  | [p] => p
  | p :: ps' => p ++ cut :: join cut ps'
  end.

(** A piece with a backslash put before each backslash and each [cut]. *)
Definition escape (cut : rune) (p : list rune) : list rune :=
  flat_map (fun c => if (c =? backslash) || (c =? cut) then [backslash; c] else [c]) p.

End Split.

Section SplitProps.

Import Split.

Local Open Scope N_scope.

Lemma split_loop_length cut (n : nat) :
  forall r v cur,
    (List.length r <= n)%nat ->
    (List.length v < List.length (loop cut r v cur))%nat.
Proof.
  induction n as [|n IH]; intros r v cur Hn.
  - destruct r; [|simpl in Hn; lia]. cbn [loop]. rewrite length_app. simpl. lia.
  - destruct r as [|c r1]; [cbn [loop]; rewrite length_app; simpl; lia|].
    cbn [loop]. simpl in Hn.
    destruct ((c =? backslash) && negb (peek (c :: r1) 1 (List.length (c :: r1)) =? 0)).
    + destruct r1 as [|x r2]; [rewrite length_app; simpl; lia|].
      apply IH. simpl in Hn. lia.
    + destruct (c =? cut).
      * specialize (IH r1 (v ++ [cur]) [] ltac:(lia)).
        rewrite length_app in IH. simpl in IH. lia.
      * apply IH. lia.
Qed.

(** X15: [split] never returns an empty slice, whatever the string and the
    cut rune: there is always a first piece (so indexing the result at 0
    is safe, and a test for a result of length 0 never holds). *)
Theorem split_never_empty (str : string) (cut : rune) :
  (1 <= List.length (split str cut))%nat.
Proof.
  unfold split, pieces. rewrite length_map.
  pose proof (split_loop_length cut _ (runes str) [] [] (Nat.le_refl _)) as H.
  simpl in H. lia.
Qed.

Lemma join_cons cut (p : list rune) (ps : list (list rune)) :
  ps <> [] -> join cut (p :: ps) = p ++ cut :: join cut ps.
Proof. destruct ps; [congruence | reflexivity]. Qed.

Lemma split_loop_plain cut (r : list rune) :
  backslash ∉ r ->
  forall v cur,
    cut ∉ cur ->
    exists ps,
      loop cut r v cur = v ++ ps
      /\ ps <> []
      /\ join cut ps = cur ++ r
      /\ Forall (fun p => cut ∉ p) ps.
Proof.
  induction r as [|c r1 IH]; intros Hbs v cur Hcur.
  - exists [cur]. cbn [loop join]. rewrite app_nil_r. repeat split; [discriminate|].
    now constructor.
  - apply not_elem_of_cons in Hbs as [Hc Hbs].
    cbn [loop]. destruct (N.eqb_spec c backslash) as [|_]; [congruence|]. cbn [andb].
    destruct (N.eqb_spec c cut) as [->|Hcut].
    + destruct (IH Hbs (v ++ [cur]) []) as (ps & E & Hne & Hj & Hall);
        [apply not_elem_of_nil|].
      exists (cur :: ps). rewrite E, <- app_assoc. repeat split; [discriminate | |].
      * now rewrite (join_cons _ _ _ Hne), Hj.
      * now constructor.
    + destruct (IH Hbs v (cur ++ [c])) as (ps & E & Hne & Hj & Hall).
      { rewrite not_elem_of_app. split; [exact Hcur|].
        rewrite list_elem_of_singleton. congruence. }
      exists ps. rewrite E, Hj, <- app_assoc. now repeat split.
Qed.

(** X16: on runes that hold no backslash, the pieces of [split] put together
    again with the cut rune between them are the runes [split] was given,
    and no piece holds the cut rune: nothing is lost, nothing is added. *)
Theorem split_join (r : list rune) (cut : rune) :
  backslash ∉ r ->
  join cut (pieces r cut) = r
  /\ Forall (fun p => cut ∉ p) (pieces r cut).
Proof.
  intros Hbs. unfold pieces.
  destruct (split_loop_plain cut r Hbs [] []) as (ps & E & _ & Hj & Hall);
    [apply not_elem_of_nil|].
  rewrite E. now split.
Qed.

Lemma split_loop_escape cut (p : list rune) :
  cut <> 0 ->
  forall rest v cur,
    loop cut (escape cut p ++ rest) v cur = loop cut rest v (cur ++ p).
Proof.
  intros Hcut. induction p as [|c p IH]; intros rest v cur.
  - now rewrite app_nil_r.
  - unfold escape. cbn [flat_map]. fold (escape cut p).
    replace (cur ++ c :: p) with ((cur ++ [c]) ++ p) by now rewrite <- app_assoc.
    destruct ((c =? backslash) || (c =? cut)) eqn:Hsp.
    + cbn [app loop]. rewrite N.eqb_refl.
      assert (Hc : (c =? 0) = false).
      { apply N.eqb_neq. apply orb_true_iff in Hsp as [->%N.eqb_eq| ->%N.eqb_eq];
          [discriminate | exact Hcut]. }
      unfold peek. cbn [List.length Nat.ltb Nat.leb nth]. rewrite Hc. cbn [andb negb].
      apply IH.
    + apply orb_false_iff in Hsp as [Hb Hc].
      cbn [app loop]. rewrite Hb, Hc. cbn [andb]. apply IH.
Qed.

Lemma split_loop_joined cut (ps : list (list rune)) :
  cut <> 0 -> cut <> backslash -> ps <> [] ->
  forall v, loop cut (join cut (map (escape cut) ps)) v [] = v ++ ps.
Proof.
  intros Hcut Hbs. induction ps as [|p ps IH]; intros Hne v; [congruence|].
  destruct ps as [|q ps].
  - cbn [map join]. rewrite <- (app_nil_r (escape cut p)).
    now rewrite (split_loop_escape cut p Hcut).
  - change (join cut (map (escape cut) (p :: q :: ps)))
      with (escape cut p ++ cut :: join cut (map (escape cut) (q :: ps))).
    rewrite (split_loop_escape cut p Hcut). cbn [app loop].
    destruct (N.eqb_spec cut backslash) as [|_]; [contradiction|]. cbn [andb].
    rewrite N.eqb_refl, IH by discriminate. now rewrite <- app_assoc.
Qed.

(** X17: [split] undoes joining with escapes: for a cut rune that is neither
    the NUL rune nor the backslash, and any pieces (at least one; a piece
    may be empty and may hold the cut rune and backslashes), cutting the
    pieces joined by the cut rune, a backslash put before each backslash and
    each cut rune inside a piece, gives back the pieces. *)
Theorem split_of_join (ps : list (list rune)) (cut : rune) :
  cut <> 0 -> cut <> backslash -> ps <> [] ->
  pieces (join cut (map (escape cut) ps)) cut = ps.
Proof.
  intros Hcut Hbs Hne. unfold pieces.
  now rewrite (split_loop_joined cut ps Hcut Hbs Hne).
Qed.

End SplitProps.

Lemma split_join_witness :
  Split.join 44%N (Split.pieces (runes "my flag,short:f,,default:x") 44%N)
  = runes "my flag,short:f,,default:x"
  /\ Forall (fun p => 44%N ∉ p) (Split.pieces (runes "my flag,short:f,,default:x") 44%N).
Proof.
  apply (split_join (runes "my flag,short:f,,default:x") 44%N).
  vm_compute. intros H. repeat (apply elem_of_cons in H as [H|H]; [discriminate|]).
  now apply elem_of_nil in H.
Defined.

Lemma split_of_join_witness :
  Split.pieces
    (Split.join 44%N (map (Split.escape 44%N) [runes "a long, long text"; []; runes "x\y"]))
    44%N
  = [runes "a long, long text"; []; runes "x\y"].
Proof.
  apply (split_of_join [runes "a long, long text"; []; runes "x\y"] 44%N); discriminate.
Defined.

(** The example of the documentation of [FlagsFrom]: an escaped comma stays
    in the description. *)
Example split_escaped_comma :
  Split.split "a long\, long description,short:F" 44%N
  = ["a long, long description"; "short:F"].
Proof. vm_compute. reflexivity. Qed.

(** ** [Comps]: the completion entry point *)

(** The errors [Comps] returns: [ErrInvalidArgCount], or the error of
    [Parse] as it is. *)
Inductive comps_error :=
| ErrInvalidArgCount
| ParseError (e : error).

(** [prev] *)
Definition prev (s : list string) (n : nat) : string :=
  if negb (Nat.eqb n 0) then nth (n - 1) s "" else "".

(** [Command.CompFlags] *)
Definition Command_CompFlags {Completion : Type} (cmd : Command.t) (name : string)
    (parents short : bool) : list Completion * CompDirective :=
  ([], CompNoFileComp).

Section Comps.

Variable Context : Type.
Variable Value : Type.
Variable Expand : Context -> any -> error + string.
Variable Vars_Set :
  Context -> gmap string Value -> Flag.t -> string -> bool -> gmap string Value * option error.
Variable toBoolString : option any -> string.
Variable flagOf : Command.t -> string -> option Flag.t.
Variable ToLower : string -> string.
Variable Ldist : list rune -> list rune -> Z.
Variable DefaultMinDist : Z.
Variable Completion : Type.
Variable NewCompletion : string -> string -> Completion.

(** The context [Comps] builds for the command ([Root] the command, the
    outputs discarded, [Vars] a fresh table). *)
Variable compContext : Command.t -> Context.

Local Abbreviation CompCommands :=
  (Command_CompCommands ToLower Ldist DefaultMinDist NewCompletion).

(** [Command.Comps]; what it prints to the standard error is left out.
    [None] stands for a [Parse] that does not return, which does not happen
    ([Comps_last_token]). *)
Definition Command_Comps (cmd : Command.t) (args : list string)
    : option (list Completion * CompDirective * option comps_error) :=
  let n := List.length args in
  if Nat.eqb n 0 then Some ([], CompError, Some ErrInvalidArgCount)
  else
    match Parse Expand Vars_Set toBoolString flagOf (compContext cmd) cmd
            (take (n - 1) args) ∅ with
    | None => None
    | Some (_, Err err) => Some ([], CompError, Some (ParseError err))
    | Some (_, Ok _) =>
      let prev := prev args n in
      let arg := nth (n - 1) args "" in
      let '(comps, dir) :=
        if HasPrefix arg "--" then Command_CompFlags cmd (from 2 arg) true false
        else if HasPrefix arg "-" then Command_CompFlags cmd (from 1 arg) true true
        else if HasPrefix prev "-" then
          match Command_Flag cmd prev true (Nat.eqb (List.length (runes prev)) 2) with
          | None => CompCommands cmd arg
          | Some g =>
            if Flag.NoArg g || has_eq prev then CompCommands cmd arg
            else ([], CompNoFileComp)
          end
        else CompCommands cmd arg in
      Some (comps, dir, None)
    end.

Lemma Parse_returns ctx root args vars :
  exists vars' r, Parse Expand Vars_Set toBoolString flagOf ctx root args vars = Some (vars', r).
Proof.
  unfold Parse. destruct (Command.Parent root); [eauto|].
  destruct (Command_Populate Expand Vars_Set root ctx false false vars) as [vars1 [e|]];
    [eauto|].
  destruct args as [|a args]; [eauto|].
  apply (parse_from_total Context Value Expand Vars_Set toBoolString flagOf).
Qed.

Lemma CompCommands_directive (cmd : Command.t) (name : string) :
  (CompCommands cmd name).2 = CompNoFileComp.
Proof.
  unfold Command_CompCommands.
  destruct (Comp_pass NewCompletion (conds_exact ToLower name) _ [] ∅) as [comps1 m1].
  destruct (Comp_pass NewCompletion (conds_prefix ToLower name) _ comps1 m1) as [comps2 m2].
  destruct (negb (minDistOf DefaultMinDist cmd =? 0)%Z); [|reflexivity].
  now destruct (Comp_pass NewCompletion _ _ comps2 m2).
Qed.

Lemma HasPrefix_dashes (s : string) : HasPrefix s "--" = true -> HasPrefix s "-" = true.
Proof.
  destruct s as [|a s]; [discriminate|]. cbn [HasPrefix].
  destruct (Ascii.eqb "-" a); [reflexivity | discriminate].
Qed.

(** X18: [Comps] fails with [ErrInvalidArgCount] on no argument.  Otherwise
    it parses all the arguments but the last and, if that fails, returns the
    error of the parse and no candidate; if it succeeds, what [Comps]
    returns depends on the last argument and the command [Comps] was called
    on only: no candidate when the last argument starts with ['-'], else the
    candidates of [CompCommands] of that command for it.  Neither the
    argument before the last (the value [prev] returns is the last argument,
    so the branch for a flag awaiting its value is never taken) nor the
    command the parse resolved has a part in it. *)
Theorem Comps_last_token (cmd : Command.t) (init : list string) (last : string) :
  Command_Comps cmd [] = Some ([], CompError, Some ErrInvalidArgCount)
  /\ exists vars r,
      Parse Expand Vars_Set toBoolString flagOf (compContext cmd) cmd init ∅ = Some (vars, r)
      /\ Command_Comps cmd (init ++ [last])
         = Some match r with
                | Err err => ([], CompError, Some (ParseError err))
                | Ok _ =>
                  (if HasPrefix last "-" then [] else (CompCommands cmd last).1,
                   CompNoFileComp, None)
                end.
Proof.
  split; [reflexivity|].
  destruct (Parse_returns (compContext cmd) cmd init ∅) as (vars & r & E).
  exists vars, r. split; [exact E|].
  unfold Command_Comps.
  assert (Hn : List.length (init ++ [last]) = S (List.length init))
    by (rewrite length_app; simpl; lia).
  rewrite Hn. cbn [Nat.eqb]. replace (S (List.length init) - 1) with (List.length init) by lia.
  rewrite take_app_length, E.
  destruct r as [[c pos]|err]; [|reflexivity].
  unfold prev. cbn [Nat.eqb negb].
  replace (S (List.length init) - 1) with (List.length init) by lia.
  rewrite app_nth2, Nat.sub_diag by lia. cbn [nth].
  destruct (HasPrefix last "--") eqn:H2.
  - now rewrite (HasPrefix_dashes _ H2).
  - destruct (HasPrefix last "-") eqn:H1; [reflexivity|].
    pose proof (CompCommands_directive cmd last) as Hdir.
    destruct (Command_CompCommands _ _ _ _ cmd last) as [comps dir].
    cbn [snd fst] in *. now subst dir.
Qed.

End Comps.

Arguments Command_Comps {Context Value} Expand Vars_Set toBoolString flagOf
  ToLower Ldist DefaultMinDist {Completion} NewCompletion compContext cmd args.

(** After [push] the candidates are still those of the root's sub commands. *)
Example Comps_after_sub_command :
  Command_Comps Tool.Expand Tool.Set_ Tool.toBoolString Tool.flagOf
    ToLower_ascii Ldist_spec 2 (fun name usage : string => (name, usage)) (fun _ => tt)
    Tool.root ["push"; "--file"; "x"; "pu"]
  = Some ([("push", ""); ("pull", "")], CompNoFileComp, None).
Proof. vm_compute. reflexivity. Qed.

(** ** [Args]: the validator of the argument count and values *)

Module ArgsOption.

Local Open Scope Z_scope.

(** The errors of the validator: [ErrInvalidArgCount] with one of its four
    messages, or [ErrInvalidArgValue] with the index and the argument. *)
Inductive args_error :=
| TakesNoArgs
| TakesMax (maximum : Z)
| TakesMin (minimum : Z)
| TakesRange (minimum maximum : Z)
| NotAllowed (i : nat) (arg : string).

(** The switch on [n := len(args)]. *)
Definition check_count (minimum maximum n : Z) : option args_error :=
  if (minimum <? 0) && (maximum <? 0) then None
  else if (minimum =? 0) && (maximum =? 0) && negb (n =? 0) then Some TakesNoArgs
  else if (minimum <=? 0) && (maximum <? n) then Some (TakesMax maximum)
  else if (maximum <=? 0) && (n <? minimum) then Some (TakesMin minimum)
  else if (0 <=? minimum) && (1 <=? maximum) && ((n <? minimum) || (maximum <? n))
       then Some (TakesRange minimum maximum)
       else None.

(** The loop over the arguments, from index [i]. *)
Fixpoint check_values (values : list string) (i : nat) (args : list string)
    : option args_error :=
  match args with
  | [] => None
  | arg :: args' =>
    if negb (Contains values arg) then Some (NotAllowed i arg)
    else check_values values (S i) args'
  end.

(** The func [Args(minimum, maximum, values...)] hands to [ArgsFunc]. *)
Definition Args (minimum maximum : Z) (values : list string) (args : list string)
    : option args_error :=
  match check_count minimum maximum (Z.of_nat (List.length args)) with
  | Some err => Some err
  | None =>
    if negb (Nat.eqb (List.length values) 0) then check_values values 0 args else None
  end.

End ArgsOption.

Section ArgsProps.

Import ArgsOption.

Local Open Scope Z_scope.

Lemma check_count_accepts (minimum maximum n : Z) :
  0 <= n ->
  (check_count minimum maximum n = None
   <-> (minimum < 0 /\ maximum < 0)
       \/ (minimum <= n /\ ((1 <= minimum /\ maximum <= 0) \/ n <= maximum))).
Proof.
  intros Hn. unfold check_count.
  destruct (Z.ltb_spec minimum 0), (Z.ltb_spec maximum 0),
    (Z.eqb_spec minimum 0), (Z.eqb_spec maximum 0), (Z.eqb_spec n 0),
    (Z.leb_spec minimum 0), (Z.ltb_spec maximum n), (Z.leb_spec maximum 0),
    (Z.ltb_spec n minimum), (Z.leb_spec 0 minimum), (Z.leb_spec 1 maximum);
    cbn [andb orb negb]; split; intros Hacc; try discriminate; try reflexivity; try lia.
Qed.

Lemma check_values_accepts (values : list string) (args : list string) :
  forall i, check_values values i args = None <-> Forall (fun a => a ∈ values) args.
Proof.
  induction args as [|a args IH]; intros i; cbn [check_values].
  - split; [constructor | reflexivity].
  - destruct (Contains values a) eqn:Ha; cbn [negb].
    + rewrite IH, Forall_cons. apply Contains_elem_of in Ha. tauto.
    + split; [discriminate|]. intros H. apply Forall_cons in H as [H _].
      apply Contains_elem_of in H. congruence.
Qed.

(** X19: [Args(minimum, maximum, values...)] accepts an argument list
    exactly when its length [n] passes the count test and, if values are
    given, every argument is one of them.  The count test passes when both
    bounds are negative, or when [minimum <= n] and either [n <= maximum] or
    there is a minimum of at least one with a maximum of zero or less (then
    no upper bound applies: [Args(2, 0)] is "at least two"). *)
Theorem Args_accepts (minimum maximum : Z) (values args : list string) :
  Args minimum maximum values args = None
  <-> ((minimum < 0 /\ maximum < 0)
       \/ (minimum <= Z.of_nat (List.length args)
           /\ ((1 <= minimum /\ maximum <= 0)
               \/ Z.of_nat (List.length args) <= maximum)))
      /\ (values = [] \/ Forall (fun a => a ∈ values) args).
Proof.
  unfold Args.
  pose proof (check_count_accepts minimum maximum (Z.of_nat (List.length args))
                (Nat2Z.is_nonneg _)) as Hc.
  destruct (check_count minimum maximum (Z.of_nat (List.length args))) as [err|].
  - split; [discriminate|]. intros [H _]. apply Hc in H. discriminate.
  - destruct values as [|x values]; cbn [List.length Nat.eqb negb].
    + split; [intros _|reflexivity]. split; [now apply Hc | now left].
    + rewrite check_values_accepts. split.
      * intros H. split; [now apply Hc | now right].
      * intros [_ [H|H]]; [discriminate | exact H].
Qed.

(** X20: with a minimum of zero and a negative maximum, [Args] rejects every
    argument list, the empty one too, with the takes-max error: here a
    negative maximum is not "no maximum". *)
Theorem Args_zero_min_negative_max_rejects (maximum : Z) (values args : list string) :
  maximum < 0 ->
  Args 0 maximum values args = Some (TakesMax maximum).
Proof.
  intros Hmax. unfold Args, check_count.
  destruct (Z.ltb_spec maximum 0); [|lia].
  destruct (Z.eqb_spec maximum 0); [lia|].
  destruct (Z.ltb_spec maximum (Z.of_nat (List.length args))); [reflexivity | lia].
Qed.

Lemma check_values_first (values : list string) (args : list string) :
  forall i j arg,
    check_values values i args = Some (NotAllowed j arg)
    <-> exists before after,
          args = before ++ arg :: after
          /\ j = (i + List.length before)%nat
          /\ (arg ∉ values)
          /\ Forall (fun a => a ∈ values) before.
Proof.
  induction args as [|a args IH]; intros i j arg; cbn [check_values].
  - split; [discriminate|]. intros (before & after & E & _). now destruct before.
  - destruct (Contains values a) eqn:Ha; cbn [negb].
    + rewrite IH. apply Contains_elem_of in Ha. split.
      * intros (before & after & -> & -> & Hn & Hb).
        exists (a :: before), after. repeat split; [simpl; lia | exact Hn | now constructor].
      * intros (before & after & E & -> & Hn & Hb).
        destruct before as [|b before]; simpl in E.
        -- injection E as -> ->. contradiction.
        -- injection E as -> ->. apply Forall_cons in Hb as [_ Hb].
           exists before, after. repeat split; [simpl; lia | exact Hn | exact Hb].
    + assert (Hna : a ∉ values) by (rewrite <- Contains_elem_of; congruence).
      split.
      * intros [= <- <-]. exists [], args. repeat split; [simpl; lia | exact Hna | constructor].
      * intros (before & after & E & -> & Hn & Hb).
        destruct before as [|b before]; simpl in E.
        -- injection E as -> ->. f_equal. f_equal. simpl. lia.
        -- injection E as -> ->. apply Forall_cons in Hb as [Hb _]. contradiction.
Qed.

(** X21: when the count passes and values are given, the error of [Args]
    names the first argument that is not one of the values, with its index:
    every argument before it is an allowed value. *)
Theorem Args_first_value_not_allowed (minimum maximum : Z) (values args : list string)
    (i : nat) (arg : string) :
  Args minimum maximum values args = Some (NotAllowed i arg) ->
  exists before after,
    args = before ++ arg :: after
    /\ i = List.length before
    /\ (arg ∉ values)
    /\ Forall (fun a => a ∈ values) before.
Proof.
  unfold Args.
  destruct (check_count minimum maximum (Z.of_nat (List.length args))) as [err|] eqn:Hc.
  - unfold check_count in Hc. intros [= ->].
    repeat match type of Hc with
           | (if ?b then _ else _) = _ => destruct b; try discriminate
           end.
  - destruct (negb (Nat.eqb (List.length values) 0)); [|discriminate].
    intros H. apply check_values_first in H as (before & after & H). now exists before, after.
Qed.

End ArgsProps.

Lemma Args_zero_min_negative_max_rejects_witness :
  ArgsOption.Args 0 (-1) [] [] = Some (ArgsOption.TakesMax (-1)).
Proof.
  exact (Args_zero_min_negative_max_rejects (-1) [] [] eq_refl).
Defined.

Lemma Args_first_value_not_allowed_witness :
  exists before after,
    ["on"; "off"; "maybe"; "never"] = before ++ "maybe" :: after
    /\ 2 = List.length before
    /\ ("maybe" ∉ ["on"; "off"])
    /\ Forall (fun a => a ∈ ["on"; "off"]) before.
Proof.
  exact (Args_first_value_not_allowed (-1) (-1) ["on"; "off"]
           ["on"; "off"; "maybe"; "never"] 2 "maybe" eq_refl).
Defined.

(** ** [Populate] and the keys of the table *)

Section PopulateKeys.

Variable Context : Type.
Variable Value : Type.
Variable Expand : Context -> any -> error + string.
Variable Vars_Set :
  Context -> gmap string Value -> Flag.t -> string -> bool -> gmap string Value * option error.

Local Abbreviation Vars := (gmap string Value).

(** [Vars.Set] writes under the flag's name only. *)
Definition Set_own_key : Prop :=
  forall ctx (vars : Vars) g value explicit k,
    k <> Flag.Name g ->
    (Vars_Set ctx vars g value explicit).1 !! k = vars !! k.

(** The flags [Populate] passes over: the [case g.Type == HookT, g.Def == nil
    && !all] of its switch. *)
Definition passed_over (all : bool) (g : Flag.t) : Prop :=
  Flag.Type' g = HookT \/ (Flag.Def g = None /\ all = false).

Lemma passed_over_test (all : bool) (g : Flag.t) :
  bool_decide (Flag.Type' g = HookT) || (bool_decide (Flag.Def g = None) && negb all) = true
  <-> passed_over all g.
Proof.
  unfold passed_over.
  rewrite orb_true_iff, andb_true_iff, !bool_decide_eq_true, negb_true_iff. reflexivity.
Qed.

Lemma Populate_loop_other_keys ctx all overwrite flags (k : string) :
  Set_own_key ->
  Forall (fun g => Flag.Name g <> k) flags ->
  forall vars,
    (Populate_loop Expand Vars_Set ctx all overwrite flags vars).1 !! k = vars !! k.
Proof.
  intros Hset Hk. induction Hk as [|g flags Hg Hk IH]; intros vars; [reflexivity|].
  cbn [Populate_loop].
  set (vars0 := if bool_decide (is_Some (vars !! Flag.Name g)) && overwrite
                then delete (Flag.Name g) vars else vars).
  assert (E0 : vars0 !! k = vars !! k).
  { subst vars0. destruct (bool_decide (is_Some (vars !! Flag.Name g)) && overwrite);
      [now apply lookup_delete_ne | reflexivity]. }
  destruct (bool_decide (Flag.Type' g = HookT)
            || (bool_decide (Flag.Def g = None) && negb all)); [now rewrite IH|].
  destruct (match Flag.Def g with Some d => Expand ctx d | None => inr "" end)
    as [err|value]; [exact E0|].
  pose proof (Hset ctx vars0 g value false k (not_eq_sym Hg)) as Es.
  destruct (Vars_Set ctx vars0 g value false) as [vars' [err|]]; cbn [fst] in Es |- *.
  - now rewrite Es.
  - now rewrite IH, Es.
Qed.

(** X22: when [Vars.Set] writes under the flag's name only, [Populate]
    leaves every key that is not the name of one of the command's own flags
    as it was, whether it ends with an error or not. *)
Theorem Populate_other_keys (cmd : Command.t) (ctx : Context) (all overwrite : bool)
    (vars : Vars) (k : string) :
  Set_own_key ->
  Forall (fun g => Flag.Name g <> k) (own_flags cmd) ->
  (Command_Populate Expand Vars_Set cmd ctx all overwrite vars).1 !! k = vars !! k.
Proof.
  intros Hset Hk. unfold Command_Populate, own_flags in *.
  destruct (Command.Flags cmd) as [fs|]; [|reflexivity].
  now apply Populate_loop_other_keys.
Qed.

Lemma Populate_loop_deletes ctx all flags (k : string) :
  Set_own_key ->
  Forall (fun g => Flag.Name g = k -> passed_over all g) flags ->
  forall vars vars',
    Populate_loop Expand Vars_Set ctx all true flags vars = (vars', None) ->
    vars !! k = None \/ Exists (fun g => Flag.Name g = k) flags ->
    vars' !! k = None.
Proof.
  intros Hset Hk. induction Hk as [|g flags Hg Hk IH]; intros vars vars' Hrun Hin.
  - injection Hrun as <-. destruct Hin as [H|H]; [exact H | inversion H].
  - cbn [Populate_loop] in Hrun. rewrite andb_true_r in Hrun.
    set (vars0 := if bool_decide (is_Some (vars !! Flag.Name g))
                  then delete (Flag.Name g) vars else vars) in Hrun.
    assert (Hin0 : vars0 !! k = None \/ Exists (fun g => Flag.Name g = k) flags).
    { subst vars0. destruct (decide (Flag.Name g = k)) as [<-|Hne].
      - left. destruct (bool_decide_reflect (is_Some (vars !! Flag.Name g))) as [Hs|Hs].
        + apply lookup_delete_eq.
        + now apply eq_None_not_Some.
      - destruct Hin as [H|H].
        + left. destruct (bool_decide (is_Some (vars !! Flag.Name g)));
            [now rewrite lookup_delete_ne | exact H].
        + right. apply Exists_cons in H as [H|H]; [contradiction | exact H]. }
    destruct (bool_decide (Flag.Type' g = HookT)
              || (bool_decide (Flag.Def g = None) && negb all)) eqn:Hpass.
    + now apply (IH vars0).
    + assert (Hne : k <> Flag.Name g).
      { intros ->. apply passed_over_test in Hg; [congruence | reflexivity]. }
      destruct (match Flag.Def g with Some d => Expand ctx d | None => inr "" end)
        as [err|value]; [discriminate|].
      pose proof (Hset ctx vars0 g value false k Hne) as Es.
      destruct (Vars_Set ctx vars0 g value false) as [vars1 [err|]]; [discriminate|].
      cbn [fst] in Es. apply (IH vars1 vars' Hrun).
      destruct Hin0 as [H|H]; [left; now rewrite Es | now right].
Qed.

(** X23: with [overwrite] set, a [Populate] that ends without error has
    deleted, not reset, the entry of a name all of whose flags it passes over
    (hooks, and flags without a default when [all] is unset): the name is
    absent from the table it leaves. *)
Theorem Populate_overwrite_deletes (cmd : Command.t) (ctx : Context) (all : bool)
    (vars vars' : Vars) (k : string) :
  Set_own_key ->
  Exists (fun g => Flag.Name g = k) (own_flags cmd) ->
  Forall (fun g => Flag.Name g = k -> passed_over all g) (own_flags cmd) ->
  Command_Populate Expand Vars_Set cmd ctx all true vars = (vars', None) ->
  vars' !! k = None.
Proof.
  intros Hset Hin Hk. unfold Command_Populate, own_flags in *.
  destruct (Command.Flags cmd) as [fs|]; [|inversion Hin].
  intros Hrun. eapply Populate_loop_deletes; eauto.
Qed.

End PopulateKeys.

Arguments Set_own_key {Context Value} Vars_Set.

Lemma Vars_Set_spec_own_key {Context Data : Type}
    (fresh : Context -> Flag.t -> string -> error + Data)
    (assign : Context -> Flag.t -> option Data -> string -> error + Data) :
  Set_own_key (Vars_Set_spec fresh assign).
Proof.
  intros ctx vars g value explicit k Hne. unfold Vars_Set_spec.
  destruct explicit.
  - destruct (assign ctx g (data <$> vars !! Flag.Name g) value); cbn [fst];
      [reflexivity | now apply lookup_insert_ne].
  - destruct (vars !! Flag.Name g) as [[d [|]]|]; cbn [fst]; try reflexivity;
      (destruct (fresh ctx g value); cbn [fst];
       [reflexivity | now apply lookup_insert_ne]).
Qed.

(** A table with an entry that is no flag's and one under ["verbose"]. *)
Definition table_before : gmap string (SetValue string) :=
  <["other" := mkSetValue "kept" true]> (<["verbose" := mkSetValue "true" true]> ∅).

(** A tool without the hook flag, whose default does not expand. *)
Definition plain : Command.t :=
  Tool.command None "cmd" [] [] [Tool.verbose; Tool.all; Tool.file; Tool.flag_] [].

Lemma Populate_other_keys_witness :
  (Command_Populate Tool.Expand Tool.Set_ plain tt true true table_before).1 !! "other"
  = Some (mkSetValue "kept" true).
Proof.
  refine (eq_trans
            (Populate_other_keys unit (SetValue string) Tool.Expand Tool.Set_ plain tt
               true true table_before "other" (Vars_Set_spec_own_key _ _) _) _).
  - repeat constructor; discriminate.
  - vm_compute. reflexivity.
Defined.

Lemma Populate_overwrite_deletes_witness :
  (Command_Populate Tool.Expand Tool.Set_ plain tt false true table_before).1 !! "verbose"
  = None.
Proof.
  apply (Populate_overwrite_deletes unit (SetValue string) Tool.Expand Tool.Set_ plain tt
           false table_before _ "verbose" (Vars_Set_spec_own_key _ _)).
  - left. reflexivity.
  - repeat first [apply Forall_nil_2 | apply Forall_cons_2]; intros E;
      try (cbv in E; discriminate E).
    right. split; reflexivity.
  - vm_compute. reflexivity.
Defined.

(** ** The flag sections of [CommandHelp.WriteTo] *)

Section HelpFlags.

(** [text.FlagSpecSpacer], [text.Flags] and [Type.String] are not among the
    sources. *)
Variable FlagSpecSpacer : string.
Variable text_Flags : string.
Variable Type_String : Type_ -> string.

(** [spec] *)
Definition spec (g : Flag.t) : string :=
  if Flag.NoArg g || bool_decide (Flag.Type' g = HookT) then Flag.Name g
  else if negb (String.eqb (Flag.Spec g) "") then
    Flag.Name g +:+ FlagSpecSpacer +:+ Flag.Spec g
  else if bool_decide (Flag.Type' g = SliceT) then
    Flag.Name g +:+ FlagSpecSpacer +:+ Type_String (Flag.Elem g)
  else if bool_decide (Flag.Type' g = MapT) then
    Flag.Name g +:+ FlagSpecSpacer +:+ Type_String (Flag.MapKey g) +:+ "="
      +:+ Type_String (Flag.Elem g)
  else Flag.Name g +:+ FlagSpecSpacer +:+ Type_String (Flag.Type' g).

(** [indexes], [specs], [width] and [sections] of [WriteTo]. *)
Definition flag_state : Type := gmap Z (list nat) * list string * Z * gmap Z string.

(** [for i, section := range help.Sections { sections[i] = section }] *)
Fixpoint sections_loop (i : nat) (names : list string) (sections : gmap Z string)
    : gmap Z string :=
  match names with
  | [] => sections
  | section :: names' => sections_loop (S i) names' (<[Z.of_nat i := section]> sections)
  end.

(** The loop that splits the flags between the sections, from index [i]. *)
Fixpoint flags_loop (i : nat) (flags : list Flag.t) (st : flag_state) : flag_state :=
  match flags with
  | [] => st
  | g :: flags' =>
    let '(indexes, specs, width, sections) := st in
    let indexes :=
      <[Flag.Section_ g := default [] (indexes !! Flag.Section_ g) ++ [i]]> indexes in
    let specs := <[i := spec g]> specs in
    let width := Z.max width (Z.of_nat (String.length (default "" (specs !! i)))) in
    let sections :=
      if bool_decide (is_Some (sections !! Flag.Section_ g)) then sections
      else <[Flag.Section_ g := text_Flags]> sections in
    flags_loop (S i) flags' (indexes, specs, width, sections)
  end.

Definition flag_split (Sections : list string) (flags : list Flag.t) : flag_state :=
  flags_loop 0 flags
    (∅, replicate (List.length flags) "", 0%Z, sections_loop 0 Sections ∅).

(** [slices.Sorted(maps.Keys(m))] *)
Definition Sorted_Keys {A : Type} (m : gmap Z A) : list Z :=
  merge_sort Z.le (map_to_list m).*1.

(** What the writing loop goes through: for each section, in the order of
    [slices.Sorted], its number, the title [sections[section]] and the
    indexes [indexes[section]] of its flags. *)
Definition flag_blocks (Sections : list string) (flags : list Flag.t)
    : list (Z * string * list nat) :=
  let '(indexes, specs, width, sections) := flag_split Sections flags in
  (fun section =>
     (section, default "" (sections !! section), default [] (indexes !! section)))
    <$> Sorted_Keys indexes.

(** The count handed to [strings.Repeat] on the line of flag [i]:
    [width-len(specs[i])+2]. *)
Definition padding (Sections : list string) (flags : list Flag.t) (i : nat) : Z :=
  let '(indexes, specs, width, sections) := flag_split Sections flags in
  (width - Z.of_nat (String.length (default "" (specs !! i))) + 2)%Z.

(** The order of the flag lines. *)
Definition flag_order (Sections : list string) (flags : list Flag.t) : list nat :=
  List.concat ((fun b => b.2) <$> flag_blocks Sections flags).

(** Flag [i] comes before flag [j]: its section number is smaller, or the
    two are equal and it is declared first. *)
Definition before (flags : list Flag.t) (i j : nat) : Prop :=
  exists g h,
    flags !! i = Some g /\ flags !! j = Some h
    /\ (Flag.Section_ g < Flag.Section_ h
        \/ (Flag.Section_ g = Flag.Section_ h /\ (i < j)%nat))%Z.

(** The indexes, from [i], of the flags of section [sec]. *)
Fixpoint positions (sec : Z) (i : nat) (flags : list Flag.t) : list nat :=
  match flags with
  | [] => []
  | g :: flags' =>
    (if Z.eqb (Flag.Section_ g) sec then [i] else []) ++ positions sec (S i) flags'
  end.

Lemma positions_elem_of (sec : Z) (flags : list Flag.t) :
  forall i j,
    j ∈ positions sec i flags
    <-> (i <= j)%nat /\ exists g, flags !! (j - i)%nat = Some g /\ Flag.Section_ g = sec.
Proof.
  induction flags as [|g flags IH]; intros i j; cbn [positions].
  - split; [intros H; inversion H | intros (_ & g & H & _); discriminate].
  - rewrite elem_of_app, IH. split.
    + intros [H|(Hle & h & Hh & Hs)].
      * destruct (Z.eqb_spec (Flag.Section_ g) sec) as [E|E]; [|inversion H].
        apply list_elem_of_singleton in H as ->. split; [lia|].
        exists g. now rewrite Nat.sub_diag.
      * split; [lia|]. exists h. split; [|exact Hs].
        replace (j - i)%nat with (S (j - S i)) by lia. exact Hh.
    + intros (Hle & h & Hh & Hs).
      destruct (decide (j = i)) as [->|Hne].
      * left. rewrite Nat.sub_diag in Hh. injection Hh as ->.
        rewrite <- Hs, Z.eqb_refl. now left.
      * right. split; [lia|]. exists h. split; [|exact Hs].
        replace (j - i)%nat with (S (j - S i)) in Hh by lia. exact Hh.
Qed.

Lemma positions_sorted (sec : Z) (flags : list Flag.t) :
  forall i, StronglySorted lt (positions sec i flags).
Proof.
  induction flags as [|g flags IH]; intros i; cbn [positions]; [constructor|].
  destruct (Z.eqb (Flag.Section_ g) sec); cbn [app]; [|apply IH].
  constructor; [apply IH|]. apply Forall_forall. intros j Hj.
  apply positions_elem_of in Hj as [Hj _]. lia.
Qed.

Lemma flags_loop_indexes (flags : list Flag.t) :
  forall i indexes specs width sections sec,
    (flags_loop i flags (indexes, specs, width, sections)).1.1.1 !! sec
    = match positions sec i flags with
      | [] => indexes !! sec
      | ps => Some (default [] (indexes !! sec) ++ ps)
      end.
Proof.
  induction flags as [|g flags IH]; intros i indexes specs width sections sec;
    [reflexivity|].
  cbn [flags_loop positions]. rewrite IH.
  destruct (Z.eqb_spec (Flag.Section_ g) sec) as [Eg|Hne]; cbn [app].
  - rewrite Eg, lookup_insert_eq. cbn [from_option id].
    destruct (positions sec (S i) flags); [reflexivity|].
    now rewrite <- app_assoc.
  - now rewrite lookup_insert_ne.
Qed.

Lemma flags_loop_sections (flags : list Flag.t) :
  forall i indexes specs width sections sec,
    (flags_loop i flags (indexes, specs, width, sections)).2 !! sec
    = match sections !! sec with
      | Some title => Some title
      | None => match positions sec i flags with
                | [] => None
                | _ => Some text_Flags
                end
      end.
Proof.
  induction flags as [|g flags IH]; intros i indexes specs width sections sec.
  - cbn [flags_loop positions snd]. now destruct (sections !! sec).
  - cbn [flags_loop positions]. rewrite IH.
    destruct (bool_decide_reflect (is_Some (sections !! Flag.Section_ g))) as [Hs|Hs].
    + destruct (sections !! sec) as [title|] eqn:E; [reflexivity|].
      destruct (Z.eqb_spec (Flag.Section_ g) sec) as [Eg|Hne]; cbn [app]; [|reflexivity].
      rewrite Eg, E in Hs. now destruct Hs.
    + destruct (Z.eqb_spec (Flag.Section_ g) sec) as [Eg|Hne]; cbn [app].
      * rewrite Eg in Hs |- *. rewrite lookup_insert_eq.
        apply eq_None_not_Some in Hs. now rewrite Hs.
      * now rewrite lookup_insert_ne.
Qed.

Lemma flags_loop_specs (flags : list Flag.t) :
  forall i indexes specs width sections,
    (i + List.length flags <= List.length specs)%nat ->
    let st := flags_loop i flags (indexes, specs, width, sections) in
    (forall j g, flags !! j = Some g -> st.1.1.2 !! (i + j)%nat = Some (spec g))
    /\ (forall j, (j < i)%nat -> st.1.1.2 !! j = specs !! j)
    /\ (width <= st.1.2)%Z
    /\ (forall g, g ∈ flags -> (Z.of_nat (String.length (spec g)) <= st.1.2)%Z)
    /\ (st.1.2 = width
        \/ exists g, g ∈ flags /\ st.1.2 = Z.of_nat (String.length (spec g))).
Proof.
  induction flags as [|g flags IH]; intros i indexes specs width sections Hlen.
  - cbn [flags_loop fst snd]. split; [intros j g H; discriminate|].
    split; [reflexivity|]. split; [lia|]. split; [intros g H; inversion H | now left].
  - cbn [flags_loop]. cbn [List.length] in Hlen.
    rewrite list_lookup_insert_eq by lia. cbn [from_option id].
    set (width' := Z.max width (Z.of_nat (String.length (spec g)))).
    set (indexes' := <[Flag.Section_ g := _]> indexes).
    set (sections' := if bool_decide _ then _ else _).
    specialize (IH (S i) indexes' (<[i := spec g]> specs) width' sections').
    rewrite length_insert in IH. specialize (IH ltac:(lia)).
    cbv zeta in IH |- *. destruct IH as (Hs & Hold & Hw & Hall & Hmax).
    split; [|split; [|split; [|split]]].
    + intros [|j] h Hj.
      * injection Hj as <-. rewrite Nat.add_0_r, Hold by lia.
        apply list_lookup_insert_eq. lia.
      * replace (i + S j)%nat with (S i + j)%nat by lia. now apply Hs.
    + intros j Hj. rewrite Hold by lia. apply list_lookup_insert_ne. lia.
    + subst width'. lia.
    + intros h Hh. apply elem_of_cons in Hh as [->|Hh]; [subst width'; lia | now apply Hall].
    + destruct Hmax as [E|(h & Hh & E)].
      * rewrite E. subst width'.
        destruct (Z.max_spec width (Z.of_nat (String.length (spec g)))) as [[_ ->]|[_ ->]];
          [right; exists g; split; [now left | reflexivity] | now left].
      * right. exists h. split; [now right | exact E].
Qed.

Lemma sections_loop_lookup (names : list string) :
  forall i sections (sec : Z),
    sections_loop i names sections !! sec
    = if bool_decide (Z.of_nat i <= sec < Z.of_nat (i + List.length names))%Z
      then names !! (Z.to_nat sec - i)%nat
      else sections !! sec.
Proof.
  induction names as [|name names IH]; intros i sections sec; cbn [sections_loop].
  - rewrite bool_decide_eq_false_2; [reflexivity|]. cbn [List.length]. lia.
  - rewrite IH. cbn [List.length].
    destruct (decide (sec = Z.of_nat i)) as [->|Hne].
    + rewrite bool_decide_eq_false_2 by lia. rewrite bool_decide_eq_true_2 by lia.
      rewrite lookup_insert_eq, Nat2Z.id, Nat.sub_diag. reflexivity.
    + rewrite lookup_insert_ne by congruence.
      destruct (bool_decide_reflect (Z.of_nat (S i) <= sec < Z.of_nat (S i + List.length names))%Z)
        as [H|H].
      * rewrite bool_decide_eq_true_2 by lia.
        replace (Z.to_nat sec - i)%nat with (S (Z.to_nat sec - S i)) by lia. reflexivity.
      * rewrite bool_decide_eq_false_2 by lia. reflexivity.
Qed.

Lemma flag_split_indexes (Sections : list string) (flags : list Flag.t) (sec : Z) :
  (flag_split Sections flags).1.1.1 !! sec
  = match positions sec 0 flags with
    | [] => None
    | ps => Some ps
    end.
Proof.
  unfold flag_split. rewrite flags_loop_indexes, lookup_empty. reflexivity.
Qed.

Lemma Sorted_Keys_elem_of {A : Type} (m : gmap Z A) (k : Z) :
  k ∈ Sorted_Keys m <-> is_Some (m !! k).
Proof.
  unfold Sorted_Keys. rewrite merge_sort_Permutation, list_elem_of_fmap. split.
  - intros ([k' x] & -> & H). apply elem_of_map_to_list in H. now exists x.
  - intros [x H]. exists (k, x). split; [reflexivity | now apply elem_of_map_to_list].
Qed.

Lemma Sorted_Keys_increasing {A : Type} (m : gmap Z A) :
  StronglySorted Z.lt (Sorted_Keys m).
Proof.
  unfold Sorted_Keys.
  assert (Hnd : NoDup (merge_sort Z.le (map_to_list m).*1)).
  { rewrite merge_sort_Permutation. apply NoDup_fst_map_to_list. }
  assert (Hs : StronglySorted Z.le (merge_sort Z.le (map_to_list m).*1)).
  { apply StronglySorted_merge_sort; [intros x y z; apply Z.le_trans | apply Z.le_total]. }
  induction Hs as [|k ks Hs IH Hall]; [constructor|].
  apply NoDup_cons in Hnd as [Hk Hnd]. constructor; [now apply IH|].
  apply Forall_forall. intros k' Hk'.
  pose proof (proj1 (Forall_forall _ _) Hall k' Hk') as Hle.
  assert (k <> k') by (intros ->; contradiction). lia.
Qed.

Lemma flag_order_eq (Sections : list string) (flags : list Flag.t) :
  flag_order Sections flags
  = List.concat ((fun sec => positions sec 0 flags)
                   <$> Sorted_Keys (flag_split Sections flags).1.1.1).
Proof.
  unfold flag_order, flag_blocks.
  pose proof (flag_split_indexes Sections flags) as Hi.
  destruct (flag_split Sections flags) as [[[indexes specs] width] sections].
  cbn [fst] in Hi |- *. rewrite <- list_fmap_compose. f_equal.
  apply list_fmap_ext. intros _ sec _. cbn. rewrite Hi.
  now destruct (positions sec 0 flags).
Qed.

Lemma before_irrefl (flags : list Flag.t) (i : nat) : ~ before flags i i.
Proof.
  intros (g & h & Hg & Hh & H). rewrite Hg in Hh. injection Hh as <-. lia.
Qed.

Lemma StronglySorted_NoDup {A : Type} (R : relation A) (l : list A) :
  (forall x, ~ R x x) -> StronglySorted R l -> NoDup l.
Proof.
  intros Hirr. induction 1 as [|x l Hs IH Hall]; constructor; [|exact IH].
  intros Hx. apply (Hirr x). exact (proj1 (Forall_forall _ _) Hall x Hx).
Qed.

Lemma blocks_sorted (flags : list Flag.t) (keys : list Z) :
  StronglySorted Z.lt keys ->
  StronglySorted (before flags)
    (List.concat ((fun sec => positions sec 0 flags) <$> keys)).
Proof.
  induction 1 as [|sec keys Hs IH Hall]; [constructor|].
  cbn [fmap list_fmap List.concat]. apply StronglySorted_app_2.
  - intros i j Hi Hj. apply positions_elem_of in Hi as (_ & g & Hg & Hgs).
    apply list_elem_of_In, in_concat in Hj as (ps & Hps & Hj).
    apply list_elem_of_In, list_elem_of_fmap in Hps as (sec' & -> & Hsec').
    apply list_elem_of_In, positions_elem_of in Hj as (_ & h & Hh & Hhs).
    rewrite Nat.sub_0_r in Hg, Hh. exists g, h. split; [exact Hg|]. split; [exact Hh|].
    left. rewrite Hgs, Hhs. exact (proj1 (Forall_forall _ _) Hall sec' Hsec').
  - pose proof (positions_sorted sec flags 0) as Hp.
    assert (Hm : forall i, i ∈ positions sec 0 flags ->
                  exists g, flags !! i = Some g /\ Flag.Section_ g = sec).
    { intros i Hi. apply positions_elem_of in Hi as (_ & g & Hg & Hgs).
      rewrite Nat.sub_0_r in Hg. now exists g. }
    induction Hp as [|i ps Hp IHp Hlt]; [constructor|].
    constructor; [apply IHp; intros j Hj; apply Hm; now right|].
    apply Forall_forall. intros j Hj.
    destruct (Hm i ltac:(now left)) as (g & Hg & Hgs).
    destruct (Hm j ltac:(now right)) as (h & Hh & Hhs).
    exists g, h. split; [exact Hg|]. split; [exact Hh|]. right.
    split; [congruence|]. exact (proj1 (Forall_forall _ _) Hlt j Hj).
  - exact IH.
Qed.

(** X24: the help writes the flag lines in the order of a stable sort by
    section number: every flag has one line, a flag of a smaller section
    number comes first, and the flags of one section keep their order of
    declaration. *)
Theorem flag_lines_stable_by_section (Sections : list string) (flags : list Flag.t) :
  flag_order Sections flags ≡ₚ seq 0 (List.length flags)
  /\ StronglySorted (before flags) (flag_order Sections flags).
Proof.
  assert (Hs : StronglySorted (before flags) (flag_order Sections flags)).
  { rewrite flag_order_eq. apply blocks_sorted, Sorted_Keys_increasing. }
  split; [|exact Hs].
  apply NoDup_Permutation.
  - eapply StronglySorted_NoDup; [apply before_irrefl | exact Hs].
  - apply NoDup_seq.
  - intros i. rewrite elem_of_seq, flag_order_eq. split.
    + intros Hi. apply list_elem_of_In, in_concat in Hi as (ps & Hps & Hi).
      apply list_elem_of_In, list_elem_of_fmap in Hps as (sec & -> & _).
      apply list_elem_of_In, positions_elem_of in Hi as (_ & g & Hg & _).
      rewrite Nat.sub_0_r in Hg. apply lookup_lt_Some in Hg. lia.
    + intros [_ Hi]. cbn in Hi. apply lookup_lt_is_Some in Hi as [g Hg].
      assert (Hp : i ∈ positions (Flag.Section_ g) 0 flags).
      { apply positions_elem_of. split; [lia|]. exists g. now rewrite Nat.sub_0_r. }
      apply list_elem_of_In, in_concat. exists (positions (Flag.Section_ g) 0 flags).
      split; [|now apply list_elem_of_In].
      apply list_elem_of_In, list_elem_of_fmap. exists (Flag.Section_ g).
      split; [reflexivity|]. apply Sorted_Keys_elem_of.
      rewrite flag_split_indexes.
      destruct (positions (Flag.Section_ g) 0 flags); [inversion Hp | eauto].
Qed.

(** X25: the flag lines come in blocks, one for each section number that a
    flag has, by increasing number and never empty.  The title of the block
    of number [sec] is [help.Sections[sec]] when [sec] is an index of
    [help.Sections], and [text.Flags] otherwise: so the flags of all section
    numbers out of that range, [NewFlag]'s [-1] among them, have blocks of
    their own under the same title. *)
Theorem flag_block_titles (Sections : list string) (flags : list Flag.t) :
  StronglySorted Z.lt ((fun b => b.1.1) <$> flag_blocks Sections flags)
  /\ (forall sec,
        sec ∈ (fun b => b.1.1) <$> flag_blocks Sections flags
        <-> exists g, g ∈ flags /\ Flag.Section_ g = sec)
  /\ forall sec title idxs,
       (sec, title, idxs) ∈ flag_blocks Sections flags ->
       idxs <> []
       /\ (forall i, i ∈ idxs <-> Flag.Section_ <$> flags !! i = Some sec)
       /\ title = if bool_decide (0 <= sec < Z.of_nat (List.length Sections))%Z
                  then default "" (Sections !! Z.to_nat sec)
                  else text_Flags.
Proof.
  unfold flag_blocks.
  pose proof (flag_split_indexes Sections flags) as Hi.
  assert (Ht : forall sec,
             (flag_split Sections flags).2 !! sec
             = match sections_loop 0 Sections ∅ !! sec with
               | Some title => Some title
               | None => match positions sec 0 flags with
                         | [] => None
                         | _ => Some text_Flags
                         end
               end).
  { intros sec. unfold flag_split. apply flags_loop_sections. }
  destruct (flag_split Sections flags) as [[[indexes specs] width] sections].
  cbn [fst snd] in Hi, Ht.
  assert (Hkeys : forall sec, sec ∈ Sorted_Keys indexes <-> positions sec 0 flags <> []).
  { intros sec. rewrite Sorted_Keys_elem_of, Hi.
    destruct (positions sec 0 flags); split; intros H; try congruence; eauto.
    now destruct H. }
  assert (Hpos : forall sec i,
             i ∈ positions sec 0 flags <-> Flag.Section_ <$> flags !! i = Some sec).
  { intros sec i. rewrite positions_elem_of, Nat.sub_0_r. split.
    - intros (_ & g & -> & <-). reflexivity.
    - intros H. split; [lia|]. destruct (flags !! i) as [g|]; [|discriminate].
      injection H as <-. now exists g. }
  assert (Hproj : forall keys : list Z,
             (fun b : Z * string * list nat => b.1.1)
               <$> ((fun section =>
                       (section, default "" (sections !! section),
                        default [] (indexes !! section))) <$> keys)
             = keys).
  { induction keys as [|k keys IH]; [reflexivity|]. cbn. now rewrite IH. }
  rewrite Hproj.
  split; [|split].
  - apply Sorted_Keys_increasing.
  - intros sec. rewrite Hkeys. split.
    + intros H. destruct (positions sec 0 flags) as [|i ps] eqn:E; [congruence|].
      assert (Hin : i ∈ positions sec 0 flags) by (rewrite E; now left).
      apply positions_elem_of in Hin as (_ & g & Hg & Hgs).
      exists g. split; [|exact Hgs]. eapply list_elem_of_lookup_2. exact Hg.
    + intros (g & Hg & Hgs) E. apply list_elem_of_lookup_1 in Hg as [i Hg].
      assert (Hin : i ∈ positions sec 0 flags).
      { apply Hpos. rewrite Hg. cbn. now rewrite Hgs. }
      rewrite E in Hin. inversion Hin.
  - intros sec title idxs Hb.
    apply list_elem_of_fmap in Hb as (sec' & [= <- -> ->] & Hsec).
    apply Hkeys in Hsec. rewrite Hi, Ht.
    destruct (positions sec 0 flags) as [|i ps] eqn:E; [congruence|]. cbn [from_option id].
    split; [discriminate|]. split; [intros j; rewrite <- E; apply Hpos|].
    rewrite sections_loop_lookup, lookup_empty, Nat.sub_0_r.
    change (Z.of_nat 0) with 0%Z. cbn [Nat.add].
    destruct (bool_decide_reflect (0 <= sec < Z.of_nat (List.length Sections))%Z) as [H|H];
      [|reflexivity].
    destruct (lookup_lt_is_Some_2 Sections (Z.to_nat sec) ltac:(lia)) as [t ->].
    reflexivity.
Qed.

(** X26: the count handed to [strings.Repeat] on a flag's line is never
    below two, so the call does not panic on a negative count, and on the
    line of a flag with the longest spec text it is two. *)
Theorem flag_padding_at_least_two (Sections : list string) (flags : list Flag.t) :
  (forall i, (i < List.length flags)%nat -> (2 <= padding Sections flags i)%Z)
  /\ (flags <> [] ->
      exists i, (i < List.length flags)%nat /\ padding Sections flags i = 2%Z).
Proof.
  unfold padding, flag_split.
  pose proof (flags_loop_specs flags 0 ∅ (replicate (List.length flags) "") 0
                (sections_loop 0 Sections ∅)) as H.
  rewrite length_replicate in H. specialize (H ltac:(lia)). cbv zeta in H.
  destruct (flags_loop 0 flags _) as [[[indexes specs] width] sections].
  cbn [fst snd Nat.add] in H. destruct H as (Hs & _ & _ & Hall & Hmax).
  split.
  - intros i Hi. apply lookup_lt_is_Some in Hi as [g Hg].
    rewrite (Hs i g Hg). cbn [from_option id].
    pose proof (Hall g (list_elem_of_lookup_2 _ _ _ Hg)). lia.
  - intros Hne. destruct Hmax as [E|(g & Hg & E)].
    + destruct flags as [|g flags]; [congruence|]. exists 0%nat.
      split; [cbn; lia|]. rewrite (Hs 0%nat g eq_refl). cbn [from_option id].
      pose proof (Hall g ltac:(now left)). lia.
    + apply list_elem_of_lookup_1 in Hg as [i Hg]. exists i.
      split; [now apply lookup_lt_Some in Hg|].
      rewrite (Hs i g Hg). cbn [from_option id]. lia.
Qed.

End HelpFlags.

(** Five flags in four sections, two of the sections named. *)
Definition five : list Flag.t :=
  let g (name : string) (section : Z) :=
    Flag.mk StringT StringT StringT name "" "" [] "" None false None section false false "" in
  [g "a" (-1)%Z; g "b" 1%Z; g "c" 0%Z; g "d" (-1)%Z; g "e" 7%Z].

Example flag_blocks_of_five :
  flag_blocks " " "Flags" (fun _ => "string") ["Main"; "Other"] five
  = [((-1)%Z, "Flags", [0; 3]); (0%Z, "Main", [2]); (1%Z, "Other", [1]);
     (7%Z, "Flags", [4])].
Proof. vm_compute. reflexivity. Qed.

Lemma flag_block_titles_witness :
  3 ∈ [0; 3] <-> Flag.Section_ <$> five !! 3 = Some (-1)%Z.
Proof.
  refine (proj1 (proj2 (proj2 (proj2 (flag_block_titles " " "Flags" (fun _ => "string")
                                        ["Main"; "Other"] five))
                          (-1)%Z "Flags" [0; 3] _)) 3).
  vm_compute. left.
Defined.

Lemma flag_padding_at_least_two_witness :
  (2 <= padding " " "Flags" (fun _ => "string") ["Main"; "Other"] five 1)%Z.
Proof.
  apply (proj1 (flag_padding_at_least_two " " "Flags" (fun _ => "string")
                  ["Main"; "Other"] five)).
  cbn. lia.
Defined.

(** ** The variables of a context *)

Section ContextVars.

Variable Value : Type.

(** What the context holds under [varsKey]: [None] when
    [ctx.Value(varsKey)] is no [Vars]. *)
Definition VarsOK (held : option (gmap string Value)) : option (gmap string Value) := held.

(** [AnyOK] *)
Definition AnyOK (held : option (gmap string Value)) (name : string) : option Value :=
  match VarsOK held with
  | Some vars => vars !! name
  | None => None
  end.

(** [All]: the loop over [vars] assigns its two variables to themselves. *)
Definition All {K : Type} `{Countable K} {T : Type} (held : option (gmap string Value))
    : gmap K T :=
  match VarsOK held with
  | Some vars => foldl (fun m '(k, vs) => m) ∅ (map_to_list vars)
  | None => ∅
  end.

(** X27: [All] returns the empty map for every context, whatever variables
    the context holds: it never copies one. *)
Theorem All_is_empty {K : Type} `{Countable K} {T : Type}
    (held : option (gmap string Value)) :
  All (K := K) (T := T) held = ∅.
Proof.
  unfold All. destruct (VarsOK held) as [vars|]; [|reflexivity].
  generalize (∅ : gmap K T). induction (map_to_list vars) as [|[k vs] l IH];
    intros m; [reflexivity | apply IH].
Qed.

End ContextVars.
